(** * copy: recursive copy of files, directories and symlinks

  A shallow embedding of [copy.go].  The program is a sequence of calls into
  the Go standard library ([os], [io], [io/ioutil], [path/filepath]); it is
  written here over an interface [OS] of those calls, each one a transition
  on an abstract world, and every call leaves an event in a trace.  The
  second half instantiates the interface with an in-memory filesystem. *)

From stdpp Require Import base option list gmap strings sorting.
From Stdlib Require Import ZArith Lia.

Local Open Scope Z_scope.

(** ** os.FileMode *)

(** [os.FileMode] is a [uint32]; the permission bits are the low nine bits and
  the kind of the entry lives in the high bits. *)
Definition FileMode := Z.

Definition ModeDir : FileMode := Z.shiftl 1 31.
Definition ModeSymlink : FileMode := Z.shiftl 1 27.
Definition ModeSetuid : FileMode := Z.shiftl 1 23.
Definition ModeSetgid : FileMode := Z.shiftl 1 22.
Definition ModeSticky : FileMode := Z.shiftl 1 20.
(** [ModePerm = 0777] *)
Definition ModePerm : FileMode := 0x1ff.

(** [tmpPermissionForDirectory = os.FileMode(0755)] *)
Definition tmpPermissionForDirectory : FileMode := 0x1ed.


(** [os.FileInfo], as far as the program looks at it. *)
Record FileInfo := mkFileInfo { Name : string; Mode : FileMode }.

(** [info.IsDir()] is [info.Mode()&ModeDir != 0]. *)
Definition IsDir (info : FileInfo) : bool :=
negb (Z.land (Mode info) ModeDir =? 0).

Definition IsSymlink (info : FileInfo) : bool :=
negb (Z.land (Mode info) ModeSymlink =? 0).

(** ** Options *)

(** Modelled from the spec: the symlink policy enum of [options.go], a tagged
  choice of exactly the three variants Shallow, Deep and Skip. *)
Inductive SymlinkAction := Shallow | Deep | Skip.

(** Modelled from the spec: the [Options] struct of [options.go]; its one field
  is the policy hook, which may be absent ([nil]). *)
Record Options (path : Type) := mkOptions {
OnSymlink : option (path → SymlinkAction)
}.
Arguments mkOptions {path} _.
Arguments OnSymlink {path} _.

(** Modelled from the spec: the default options of [options.go], whose policy
  is the constant function returning Shallow. *)
Definition DefaultOptions {path : Type} : Options path :=
{| OnSymlink := Some (λ _, Shallow) |}.

(** ** The program over an interface of system calls *)

Section Program.

(** [path] stands for the Go strings that hold paths, [File] for [*os.File],
    [W] for the state of the world outside the program, and [err] for the
    non-nil values of Go's [error]. *)
Context {path File W err : Type} `{Countable path}.

(** Go's [error]: [None] is [nil]. *)
Definition error : Type := option err.

(** The calls the program makes.  A call that returns [(v, err)] in Go
    returns a sum here. *)
Class OS := {
  os_Lstat : path → W → (FileInfo + err) * W;
  os_MkdirAll : path → FileMode → W → error * W;
  os_Create : path → W → (File + err) * W;
  os_Chmod : path → FileMode → W → error * W;
  os_Open : path → W → (File + err) * W;
  os_Readlink : path → W → (path + err) * W;
  os_Symlink : path → path → W → error * W;
  io_Copy : File → File → W → (Z * error) * W;
  file_Close : File → W → error * W;
  file_Name : File → path;
  ioutil_ReadDir : path → W → (list FileInfo + err) * W;
  filepath_Dir : path → path;
  filepath_Join : path → string → path;
  filepath_FromSlash : path → path
}.

Context `{OS}.

(** One event per call, with its arguments and what it returned. *)
Inductive event :=
| EvLstat (p : path) (r : FileInfo + err)
| EvMkdirAll (p : path) (m : FileMode) (e : error)
| EvCreate (p : path) (r : File + err)
| EvChmod (p : path) (m : FileMode) (e : error)
| EvOpen (p : path) (r : File + err)
| EvReadlink (p : path) (r : path + err)
| EvSymlink (oldname newname : path) (e : error)
| EvIoCopy (dst src : File) (r : Z * error)
| EvClose (f : File) (e : error)
| EvReadDir (p : path) (r : list FileInfo + err).

(** A computation transforms the world and emits the events of its calls, in
    order; [None] is a computation that needs a deeper recursion than the
    bound it was run with. *)
Definition M (A : Type) : Type := W → option (A * W * list event).

Definition ret {A} (a : A) : M A := λ w, Some (a, w, []).

Definition bind {A B} (m : M A) (k : A → M B) : M B := λ w,
  match m w with
  | None => None
  | Some (a, w1, t1) =>
      match k a w1 with
      | None => None
      | Some (b, w2, t2) => Some (b, w2, t1 ++ t2)
      end
  end.

Definition out_of_depth {A} : M A := λ _, None.

Notation "'let*' x ':=' m 'in' k" := (bind m (λ x, k))
  (at level 10, x name, m at level 100, k at level 200).

(** A call: perform it on the world and record it. *)
Definition call {A} (f : W → A * W) (ev : A → event) : M A := λ w,
  let '(a, w') := f w in Some (a, w', [ev a]).

Definition call_Lstat p := call (os_Lstat p) (EvLstat p).
Definition call_MkdirAll p m := call (os_MkdirAll p m) (EvMkdirAll p m).
Definition call_Create p := call (os_Create p) (EvCreate p).
Definition call_Chmod p m := call (os_Chmod p m) (EvChmod p m).
Definition call_Open p := call (os_Open p) (EvOpen p).
Definition call_Readlink p := call (os_Readlink p) (EvReadlink p).
Definition call_Symlink o n := call (os_Symlink o n) (EvSymlink o n).
Definition call_IoCopy dst src := call (io_Copy dst src) (EvIoCopy dst src).
Definition call_Close f := call (file_Close f) (EvClose f).
Definition call_ReadDir p := call (ioutil_ReadDir p) (EvReadDir p).

(** [defer d(&err)] in a function with the named result [err]: the body runs
    to its [return], which stores the result, and then [d] runs with access
    to it.  Deferred calls registered later run earlier, which is how the
    nesting below comes out. *)
Definition defer (d : error → M error) (body : M error) : M error :=
  let* reported := body in d reported.

(** [fclose]: close anyhow, and keep an error already reported. *)
Definition fclose (f : File) (reported : error) : M error :=
  let* e := call_Close f in
  ret (match reported with None => e | Some _ => reported end).

(** [chmod]: change the mode anyhow, and keep an error already reported. *)
Definition chmod (dir : path) (mode : FileMode) (reported : error) : M error :=
  let* e := call_Chmod dir mode in
  ret (match reported with None => e | Some _ => reported end).

(** [fcopy] *)
Definition fcopy (src dest : path) (info : FileInfo) : M error :=
  let* e := call_MkdirAll (filepath_Dir dest) ModePerm in
  match e with
  | Some _ => ret e
  | None =>
      let* r := call_Create dest in
      match r with
      | inr e => ret (Some e)
      | inl f =>
          defer (fclose f) (
            let* e := call_Chmod (file_Name f) (Mode info) in
            match e with
            | Some _ => ret e
            | None =>
                let* r := call_Open src in
                match r with
                | inr e => ret (Some e)
                | inl s =>
                    defer (fclose s) (
                      let* r := call_IoCopy f s in
                      ret (snd r))
                end
            end)
      end
  end.

(** [lcopy] *)
Definition lcopy (src dest : path) : M error :=
  let* r := call_Readlink src in
  match r with
  | inr e => ret (Some e)
  | inl src => call_Symlink src dest
  end.

(** The dispatcher as the handlers see it when they call back into it. *)
Definition dispatcher : Type :=
  path → path → gset path → FileInfo → Options path → M error.

(** The [for _, content := range contents] loop of [dcopy]. *)
Fixpoint dcopy_range (copy : dispatcher) (srcdir destdir : path)
    (toSkip : gset path) (opt : Options path) (contents : list FileInfo)
    : M error :=
  match contents with
  | [] => ret None
  | content :: rest =>
      let cs := filepath_Join srcdir (Name content) in
      let cd := filepath_Join destdir (Name content) in
      let* e := copy cs cd toSkip content opt in
      match e with
      | Some _ => ret e
      | None => dcopy_range copy srcdir destdir toSkip opt rest
      end
  end.

(** [dcopy] *)
Definition dcopy (copy : dispatcher) (srcdir destdir : path)
    (toSkip : gset path) (info : FileInfo) (opt : Options path) : M error :=
  let originalMode := Mode info in
  let* e := call_MkdirAll destdir tmpPermissionForDirectory in
  match e with
  | Some _ => ret e
  | None =>
      defer (chmod destdir originalMode) (
        let* r := call_ReadDir srcdir in
        match r with
        | inr e => ret (Some e)
        | inl contents => dcopy_range copy srcdir destdir toSkip opt contents
        end)
  end.

(** The policy in force for [opt]: its own hook, or the default one when it
    has none. *)
Definition policy (opt : Options path) : path → SymlinkAction :=
  match OnSymlink opt with
  | Some f => f
  | None => default (λ _, Shallow) (OnSymlink (@DefaultOptions path))
  end.

(** [onsymlink].  [opt] is a copy of the caller's struct; the assignment to
    [opt.OnSymlink] changes that copy, which is what goes on to [copy]. *)
Definition onsymlink (copy : dispatcher) (src dest : path)
    (info : FileInfo) (opt : Options path) : M error :=
  let opt :=
    match OnSymlink opt with
    | None => {| OnSymlink := OnSymlink (@DefaultOptions path) |}
    | Some _ => opt
    end in
  match policy opt src with
  | Shallow => lcopy src dest
  | Deep =>
      let* r := call_Readlink src in
      match r with
      | inr e => ret (Some e)
      | inl orig =>
          let* r := call_Lstat orig in
          match r with
          | inr e => ret (Some e)
          | inl info => copy orig dest ∅ info opt
          end
      end
  | Skip => ret None
  end.

(** [copy], the dispatcher.  [depth] bounds how many dispatcher calls may be
    nested below this one (directory levels and dereferenced links); the Go
    function has no such bound and may recurse forever on a cycle of links. *)
Fixpoint copy (depth : nat) (src dest : path) (toSkip : gset path)
    (info : FileInfo) (opt : Options path) {struct depth} : M error :=
  let again : dispatcher :=
    match depth with
    | O => λ _ _ _ _ _, out_of_depth
    | S d => copy d
    end in
  if decide (src ∈ toSkip) then ret None
  else if IsSymlink info then onsymlink again src dest info opt
  else if IsDir info then dcopy again src dest toSkip info opt
  else fcopy src dest info.

(** The loop of [CopyButSkipSome] that fills [toSkipMap]. *)
Definition toSkipMap (toSkip : list path) : gset path :=
  foldl (λ m s, {[ filepath_FromSlash s ]} ∪ m) ∅ toSkip.

(** [CopyButSkipSome] *)
Definition CopyButSkipSome (depth : nat) (src dest : path)
    (toSkip : list path) (opt : list (Options path)) : M error :=
  let toSkipMap := toSkipMap toSkip in
  let opt := opt ++ [DefaultOptions] in
  let* r := call_Lstat src in
  match r with
  | inr e => ret (Some e)
  | inl info => copy depth src dest toSkipMap info (hd DefaultOptions opt)
  end.

(** [Copy] *)
Definition Copy (depth : nat) (src dest : path) (opt : list (Options path))
    : M error :=
  CopyButSkipSome depth src dest [] opt.

(** *** What a trace shows *)

(** The error a call returned. *)
Definition ev_error (e : event) : error :=
  match e with
  | EvLstat _ r => match r with inl _ => None | inr x => Some x end
  | EvCreate _ r | EvOpen _ r => match r with inl _ => None | inr x => Some x end
  | EvReadlink _ r => match r with inl _ => None | inr x => Some x end
  | EvReadDir _ r => match r with inl _ => None | inr x => Some x end
  | EvMkdirAll _ _ x | EvChmod _ _ x | EvSymlink _ _ x | EvClose _ x => x
  | EvIoCopy _ _ r => snd r
  end.

(** The first error of a trace, in the order of the calls. *)
Fixpoint first_error (t : list event) : error :=
  match t with
  | [] => None
  | e :: t =>
      match ev_error e with
      | Some x => Some x
      | None => first_error t
      end
  end.

(** The handles a trace opened, and those it closed, in order. *)
Definition opened (t : list event) : list File :=
  omap (λ e, match e with
             | EvCreate _ (inl f) | EvOpen _ (inl f) => Some f
             | _ => None
             end) t.

Definition closed (t : list event) : list File :=
  omap (λ e, match e with EvClose f _ => Some f | _ => None end) t.

(** The path a call reads or stats on the source side, if it does. *)
Definition source_access (e : event) : option path :=
  match e with
  | EvLstat p _ | EvOpen p _ | EvReadlink p _ | EvReadDir p _ => Some p
  | _ => None
  end.

(** No call of the trace reads or stats a path of the skip set. *)
Definition skipped_untouched (toSkip : gset path) (t : list event) : Prop :=
  ∀ e p, e ∈ t → source_access e = Some p → p ∉ toSkip.

(** No link was dereferenced under the Deep policy of [opt] in the trace:
    every link that was read had another policy. *)
Definition no_deep_dereference (opt : Options path) (t : list event) : Prop :=
  ∀ p r, EvReadlink p r ∈ t → policy opt p ≠ Deep.


(** A computation that takes the world from [w] to some [w'] with [R w w']. *)
Definition moves_along {A} (R : W → W → Prop) (m : M A) : Prop :=
  ∀ w a w' t, m w = Some (a, w', t) → R w w'.

(** Every call of the interface takes the world along [R]. *)
Definition calls_move_along (R : W → W → Prop) : Prop :=
  (∀ p w, R w (os_Lstat p w).2)
  ∧ (∀ p m w, R w (os_MkdirAll p m w).2)
  ∧ (∀ p w, R w (os_Create p w).2)
  ∧ (∀ p m w, R w (os_Chmod p m w).2)
  ∧ (∀ p w, R w (os_Open p w).2)
  ∧ (∀ p w, R w (os_Readlink p w).2)
  ∧ (∀ o n w, R w (os_Symlink o n w).2)
  ∧ (∀ d s w, R w (io_Copy d s w).2)
  ∧ (∀ f w, R w (file_Close f w).2)
  ∧ (∀ p w, R w (ioutil_ReadDir p w).2).

(** A computation whose result is the first error of its own trace. *)
Definition reports_first (m : M error) : Prop :=
  ∀ w r w' t, m w = Some (r, w', t) → r = first_error t.

(** A call made on the way out of a function: a close or a chmod. *)
Definition is_cleanup (e : event) : Prop :=
  match e with
  | EvClose _ _ | EvChmod _ _ _ => True
  | _ => False
  end.

(** After the first call that reports an error, only closes and chmods
    follow. *)
Fixpoint fails_fast (t : list event) : Prop :=
  match t with
  | [] => True
  | e :: t =>
      match ev_error e with
      | Some _ => Forall is_cleanup t
      | None => fails_fast t
      end
  end.

End Program.

(** ** An in-memory filesystem *)

Module MemFS.

(** A path is the list of its components, the last one first: [a/b/c] is
    ["c"; "b"; "a"], and the empty list is the root.  A name joined to a
    directory is consed onto it, and the parent is the tail. *)
Abbreviation path := (list string).

Inductive node :=
| File (content : list Byte.byte) (perm : FileMode)
| Dir (perm : FileMode)
| Link (target : path).

(** An open file: its descriptor and the name it was opened under. *)
Record handle := mkHandle { fd : nat; fname : path }.

Inductive errno :=
  ENOENT | EEXIST | ENOTDIR | EISDIR | EBADF | EINVAL | ELOOP | EIO.

(** The nodes by path, the table of open descriptors, and the umask of the
    process.  Permission bits are stored and reported but never enforced:
    the process may do whatever the shape of the tree allows.  There is one
    name per node (no hard links), and a call that would follow a symlink in
    a real system reports an error instead. *)
Record memfs := mkFS {
  nodes : gmap (list string) node;
  fds : gmap nat (list string);
  umask : Z
}.

(** The bits [os.Chmod] passes on: the permissions, setuid, setgid, sticky. *)
Definition chmod_mask : FileMode :=
  Z.lor ModePerm (Z.lor ModeSetuid (Z.lor ModeSetgid ModeSticky)).

Definition mode_of (n : node) : FileMode :=
  match n with
  | File _ m => Z.land m chmod_mask
  | Dir m => Z.lor ModeDir (Z.land m chmod_mask)
  | Link _ => Z.lor ModeSymlink ModePerm
  end.

Definition info_of (p : path) (n : node) : FileInfo :=
  {| Name := hd "/"%string p; Mode := mode_of n |}.

Definition set_nodes (fs : memfs) (ns : gmap (list string) node) : memfs :=
  {| nodes := ns; fds := fds fs; umask := umask fs |}.

Definition new_perm (fs : memfs) (perm : FileMode) : FileMode :=
  Z.land (Z.land perm chmod_mask) (Z.lnot (umask fs)).

Definition Lstat (p : path) (fs : memfs) : (FileInfo + errno) * memfs :=
  match nodes fs !! p with
  | Some n => (inl (info_of p n), fs)
  | None => (inr ENOENT, fs)
  end.

(** [os.MkdirAll]: nothing to do for a directory, an error for anything else
    that is in the way, and otherwise the parents first and then the
    directory itself.  What was created before an error stays. *)
Fixpoint mkdir_all (perm : FileMode) (p : path)
    (ns : gmap (list string) node) : option errno * gmap (list string) node :=
  match ns !! p with
  | Some (Dir _) => (None, ns)
  | Some _ => (Some ENOTDIR, ns)
  | None =>
      match p with
      | [] => (None, <[p := Dir perm]> ns)
      | _ :: parent =>
          match mkdir_all perm parent ns with
          | (Some e, ns') => (Some e, ns')
          | (None, ns') => (None, <[p := Dir perm]> ns')
          end
      end
  end.

Definition MkdirAll (p : path) (perm : FileMode) (fs : memfs)
    : option errno * memfs :=
  let '(e, ns) := mkdir_all (new_perm fs perm) p (nodes fs) in
  (e, set_nodes fs ns).

(** A new descriptor for [p]. *)
Definition open_fd (p : path) (fs : memfs) : handle * memfs :=
  let n := fresh (dom (fds fs)) in
  ({| fd := n; fname := p |},
   {| nodes := nodes fs; fds := <[n := p]> (fds fs); umask := umask fs |}).

(** What must hold of the parent to make a new entry at [p]. *)
Definition parent_error (p : path) (fs : memfs) : option errno :=
  match nodes fs !! tail p with
  | Some (Dir _) => None
  | Some _ => Some ENOTDIR
  | None => Some ENOENT
  end.

(** [os.Create]: truncate an existing file, keeping its mode, or make a new
    one with mode 0666 before umask. *)
Definition Create (p : path) (fs : memfs) : (handle + errno) * memfs :=
  match nodes fs !! p with
  | Some (File _ m) =>
      let '(h, fs') := open_fd p (set_nodes fs (<[p := File [] m]> (nodes fs))) in
      (inl h, fs')
  | Some (Dir _) => (inr EISDIR, fs)
  | Some (Link _) => (inr ELOOP, fs)
  | None =>
      match parent_error p fs with
      | Some e => (inr e, fs)
      | None =>
          let m := new_perm fs 0x1b6 in
          let '(h, fs') := open_fd p (set_nodes fs (<[p := File [] m]> (nodes fs))) in
          (inl h, fs')
      end
  end.

Definition Chmod (p : path) (mode : FileMode) (fs : memfs)
    : option errno * memfs :=
  match nodes fs !! p with
  | Some (File c _) =>
      (None, set_nodes fs (<[p := File c (Z.land mode chmod_mask)]> (nodes fs)))
  | Some (Dir _) =>
      (None, set_nodes fs (<[p := Dir (Z.land mode chmod_mask)]> (nodes fs)))
  | Some (Link _) => (Some ELOOP, fs)
  | None => (Some ENOENT, fs)
  end.

(** [os.Open] also opens a directory; reading from it is what fails. *)
Definition Open (p : path) (fs : memfs) : (handle + errno) * memfs :=
  match nodes fs !! p with
  | Some (File _ _) | Some (Dir _) =>
      let '(h, fs') := open_fd p fs in (inl h, fs')
  | Some (Link _) => (inr ELOOP, fs)
  | None => (inr ENOENT, fs)
  end.

Definition Readlink (p : path) (fs : memfs) : (path + errno) * memfs :=
  match nodes fs !! p with
  | Some (Link t) => (inl t, fs)
  | Some _ => (inr EINVAL, fs)
  | None => (inr ENOENT, fs)
  end.

Definition Symlink (oldname newname : path) (fs : memfs)
    : option errno * memfs :=
  match nodes fs !! newname with
  | Some _ => (Some EEXIST, fs)
  | None =>
      match parent_error newname fs with
      | Some e => (Some e, fs)
      | None => (None, set_nodes fs (<[newname := Link oldname]> (nodes fs)))
      end
  end.

(** [io.Copy(dst, src)].  Both handles are at offset 0, as every handle of
    this program is when it is copied: the bytes of the source overwrite the
    destination from its start. *)
Definition IoCopy (dst src : handle) (fs : memfs)
    : (Z * option errno) * memfs :=
  match fds fs !! fd src, fds fs !! fd dst with
  | Some ps, Some pd =>
      match nodes fs !! ps with
      | Some (File cs _) =>
          match nodes fs !! pd with
          | Some (File cd md) =>
              ((Z.of_nat (length cs), None),
               set_nodes fs
                 (<[pd := File (cs ++ drop (length cs) cd) md]> (nodes fs)))
          | _ => ((0, Some EBADF), fs)
          end
      | Some (Dir _) => ((0, Some EISDIR), fs)
      | _ => ((0, Some EBADF), fs)
      end
  | _, _ => ((0, Some EBADF), fs)
  end.

Definition Close (h : handle) (fs : memfs) : option errno * memfs :=
  match fds fs !! fd h with
  | Some _ =>
      (None, {| nodes := nodes fs; fds := delete (fd h) (fds fs);
                umask := umask fs |})
  | None => (Some EBADF, fs)
  end.

(** The name of [kn] if it is a child of [dir]. *)
Definition child_name (dir : path) (kn : path * node) : option string :=
  match kn.1 with
  | name :: parent => if decide (parent = dir) then Some name else None
  | [] => None
  end.

Definition child_names (dir : path) (ns : gmap (list string) node)
    : list string :=
  omap (child_name dir) (map_to_list ns).

(** The listing of [p]: read the names in the directory, lstat each of them
    (an entry that is gone by then is left out), sorted by filename. *)
Definition listing (p : path) (ns : gmap (list string) node) : list FileInfo :=
  omap (λ name, info_of (name :: p) <$> ns !! (name :: p))
    (merge_sort String.le (child_names p ns)).

(** [ioutil.ReadDir] *)
Definition ReadDir (p : path) (fs : memfs) : (list FileInfo + errno) * memfs :=
  match nodes fs !! p with
  | Some (Dir _) => (inl (listing p (nodes fs)), fs)
  | Some _ => (inr ENOTDIR, fs)
  | None => (inr ENOENT, fs)
  end.

#[global] Instance memfs_OS : @OS path handle memfs errno := {|
  os_Lstat := Lstat;
  os_MkdirAll := MkdirAll;
  os_Create := Create;
  os_Chmod := Chmod;
  os_Open := Open;
  os_Readlink := Readlink;
  os_Symlink := Symlink;
  io_Copy := IoCopy;
  file_Close := Close;
  file_Name := fname;
  ioutil_ReadDir := ReadDir;
  filepath_Dir := tail;
  filepath_Join := λ dir name, name :: dir;
  filepath_FromSlash := id
|}.

(** *** What is observed of a filesystem *)



Definition is_dir (ns : gmap (list string) node) (p : path) : Prop :=
  ∃ m, ns !! p = Some (Dir m).

(** Directories stay directories. *)
Definition keeps_dirs (fs fs' : memfs) : Prop :=
  ∀ p, is_dir (nodes fs) p → is_dir (nodes fs') p.


(** The run of the dispatcher on [fs] reads or stats no path of its skip
    set. *)
Definition skipped_never_read (depth : nat) (src dest : path)
    (toSkip : gset path) (info : FileInfo) (opt : Options path) (fs : memfs)
    : Prop :=
  ∀ r fs' t,
    copy depth src dest toSkip info opt fs = Some (r, fs', t) →
    skipped_untouched toSkip t.




(** The kind of an entry. *)
Inductive kind := KFile | KDir | KLink.

Definition kind_of (n : node) : kind :=
  match n with
  | File _ _ => KFile
  | Dir _ => KDir
  | Link _ => KLink
  end.

(** Every entry stays, with the kind it has. *)
Definition keeps_kinds (fs fs' : memfs) : Prop :=
  ∀ p n, nodes fs !! p = Some n →
    ∃ n', nodes fs' !! p = Some n' ∧ kind_of n' = kind_of n.




End MemFS.


(** ** A filesystem whose closes can fail *)

Module Faulty.

Import MemFS.

(** The in-memory filesystem together with the outcomes of the coming calls
    of [Close], in order: [Some e] makes the call report [e] (the descriptor
    is released all the same), [None] and an empty list let it go through. *)
Definition faulty : Type := memfs * list (option errno).

Definition lift {A} (f : memfs → A * memfs) (w : faulty) : A * faulty :=
  let '(a, fs') := f w.1 in (a, (fs', w.2)).

Definition Close (h : handle) (w : faulty) : option errno * faulty :=
  let '(e, fs') := MemFS.Close h w.1 in
  match w.2 with
  | [] => (e, (fs', []))
  | None :: rest => (e, (fs', rest))
  | Some x :: rest => (Some x, (fs', rest))
  end.

#[global] Instance faulty_OS : @OS path handle faulty errno := {|
  os_Lstat p := lift (Lstat p);
  os_MkdirAll p m := lift (MkdirAll p m);
  os_Create p := lift (Create p);
  os_Chmod p m := lift (Chmod p m);
  os_Open p := lift (Open p);
  os_Readlink p := lift (Readlink p);
  os_Symlink o n := lift (Symlink o n);
  io_Copy d s := lift (IoCopy d s);
  file_Close := Close;
  file_Name := fname;
  ioutil_ReadDir p := lift (ReadDir p);
  filepath_Dir := tail;
  filepath_Join := λ dir name, name :: dir;
  filepath_FromSlash := id
|}.

End Faulty.

(** ** Concrete filesystems *)

Module Examples.

Import MemFS.
Local Open Scope string_scope.

Definition bytes (s : string) : list Byte.byte := String.list_byte_of_string s.

(** The result, the state and the trace of a run; a run that does not end
    has none. *)
Definition result_of {A W E} (x : option (option A * W * list E)) : option A :=
  match x with Some (r, _, _) => r | None => None end.

Definition state_of {A W E} (w : W) (x : option (A * W * list E)) : W :=
  match x with Some (_, w', _) => w' | None => w end.

Definition trace_of {A W E} (x : option (A * W * list E)) : list E :=
  match x with Some (_, _, t) => t | None => [] end.

(** [/f], a regular file with mode 0644. *)
Definition fs_file : memfs :=
  {| nodes := list_to_map [([], Dir 0x1ed); (["f"], File (bytes "hi") 0x1a4)];
     fds := ∅; umask := 0x12 |}.

(** [/l], a symlink to [/t], which does not exist. *)
Definition fs_link : memfs :=
  {| nodes := list_to_map [([], Dir 0x1ed); (["l"], Link ["t"])];
     fds := ∅; umask := 0x12 |}.

(** [/a] (mode 0700) with the files [f] (0644) and [g] (0444) and the link
    [l] to the directory [/t], which holds the file [x]. *)
Definition fs_tree : memfs :=
  {| nodes := list_to_map
       [([], Dir 0x1ed);
        (["a"], Dir 0x1c0);
        (["f"; "a"], File (bytes "hi") 0x1a4);
        (["g"; "a"], File (bytes "yo") 0x124);
        (["l"; "a"], Link ["t"]);
        (["t"], Dir 0x1ed);
        (["x"; "t"], File (bytes "sk") 0x1a4)];
     fds := ∅; umask := 0x12 |}.

(** [fs_tree] with a directory [/out/g] in the way of the file [g]. *)
Definition fs_blocked : memfs :=
  set_nodes fs_tree
    (<[["g"; "out"] := Dir 0x1ed]> (<[["out"] := Dir 0x1ed]> (nodes fs_tree))).


(** [/l], a symlink to itself. *)
Definition fs_loop : memfs :=
  {| nodes := list_to_map [([], Dir 0x1ed); (["l"], Link ["l"])];
     fds := ∅; umask := 0x12 |}.

Definition info_a : FileInfo := info_of ["a"] (Dir 0x1c0).
Definition info_f : FileInfo := info_of ["f"; "a"] (File (bytes "hi") 0x1a4).
Definition info_g : FileInfo := info_of ["g"; "a"] (File (bytes "yo") 0x124).
Definition info_l : FileInfo := info_of ["l"; "a"] (Link ["t"]).

Definition always (a : SymlinkAction) : Options path :=
  {| OnSymlink := Some (λ _, a) |}.

(** The copy of [/a] to [/out] in [fs_blocked], step by step. *)
Definition blocked_1 : memfs :=
  (MkdirAll ["out"] tmpPermissionForDirectory fs_blocked).2.
Definition blocked_pre :=
  dcopy_range (copy 0) ["a"] ["out"] ∅ DefaultOptions [info_f] blocked_1.
Definition blocked_g :=
  copy 0 ["g"; "a"] ["g"; "out"] ∅ info_g DefaultOptions
    (state_of blocked_1 blocked_pre).
Definition blocked_end : option errno * memfs :=
  Chmod ["out"] (Mode info_a) (state_of blocked_1 blocked_g).

End Examples.

(** * Properties of the program, for every behaviour of the system calls *)

Section ProgramFacts.

Context {path File W err : Type} `{Countable path} `{!@OS path File W err}.

Local Abbreviation comp := (@M path File W err).
Local Abbreviation trace := (list (@event path File err)).
Implicit Types (w : W) (t : trace) (r : option err) (toSkip : gset path).

(** *** Running a computation *)

Lemma bind_Some {A B} (m : comp A) (k : A → comp B) w b w2 t :
  bind m k w = Some (b, w2, t) ↔
  ∃ a w1 t1 t2,
    m w = Some (a, w1, t1) ∧ k a w1 = Some (b, w2, t2) ∧ t = t1 ++ t2.
Proof.
  unfold bind. split.
  - destruct (m w) as [[[a w1] t1]|]; [|done].
    destruct (k a w1) as [[[b' w2'] t2]|] eqn:Hk; [|done].
    intros [= -> -> <-]. by exists a, w1, t1, t2.
  - intros (a & w1 & t1 & t2 & -> & -> & ->). done.
Qed.

Lemma call_Some {A} (f : W → A * W) (ev : A → event) w a w' (t : trace) :
  call f ev w = Some (a, w', t) ↔ f w = (a, w') ∧ t = [ev a].
Proof.
  unfold call. destruct (f w) as [a0 w0]. split.
  - by intros [= -> -> <-].
  - by intros [[= -> ->] ->].
Qed.

Lemma ret_Some {A} (a b : A) w w' (t : trace) :
  ret a w = Some (b, w', t) ↔ b = a ∧ w' = w ∧ t = [].
Proof. unfold ret. split; [by intros [= -> -> <-]|by intros (-> & -> & ->)]. Qed.

Lemma first_error_app (t1 t2 : trace) :
  first_error (t1 ++ t2) =
    match first_error t1 with Some x => Some x | None => first_error t2 end.
Proof.
  induction t1 as [|e t1 IH]; simpl; [done|]. by destruct (ev_error e).
Qed.

(** *** The dispatcher, one level unfolded *)

Lemma copy_unfold depth src dest toSkip info opt :
  copy depth src dest toSkip info opt =
    if decide (src ∈ toSkip) then ret None
    else if IsSymlink info then
      onsymlink (match depth with
                 | O => λ _ _ _ _ _, out_of_depth
                 | S d => copy d
                 end) src dest info opt
    else if IsDir info then
      dcopy (match depth with
             | O => λ _ _ _ _ _, out_of_depth
             | S d => copy d
             end) src dest toSkip info opt
    else fcopy src dest info.
Proof. by destruct depth. Qed.

(** Filling in the default hook does not change the policy. *)
Lemma policy_defaulted (opt : Options path) :
  policy (match OnSymlink opt with
          | None => {| OnSymlink := OnSymlink (@DefaultOptions path) |}
          | Some _ => opt
          end) = policy opt.
Proof.
  unfold policy. destruct (OnSymlink opt) eqn:E; simpl; by rewrite ?E.
Qed.

Lemma policy_Deep_defaulted (opt : Options path) src :
  policy opt src = Deep →
  match OnSymlink opt with
  | None => {| OnSymlink := OnSymlink (@DefaultOptions path) |}
  | Some _ => opt
  end = opt.
Proof. unfold policy. destruct (OnSymlink opt); simpl; [done|discriminate]. Qed.

(** The loop over the entries that succeed goes on with the rest. *)
Lemma dcopy_range_app again srcdir destdir toSkip opt pre rest w w1 t1 :
  dcopy_range again srcdir destdir toSkip opt pre w = Some (None, w1, t1) →
  dcopy_range again srcdir destdir toSkip opt (pre ++ rest) w =
    match dcopy_range again srcdir destdir toSkip opt rest w1 with
    | Some (r, w2, t2) => Some (r, w2, t1 ++ t2)
    | None => None
    end.
Proof.
  revert w t1. induction pre as [|c pre IH]; intros w t1; simpl.
  - intros [= -> <-]. by destruct (dcopy_range _ _ _ _ _ rest _) as [[[??]?]|].
  - intros (e & w0 & t0 & t2 & Hc & Hk & ->)%bind_Some.
    unfold bind at 1. rewrite Hc. destruct e as [x|].
    + by apply ret_Some in Hk as (? & ? & ?).
    + rewrite (IH _ _ Hk).
      destruct (dcopy_range _ _ _ _ _ rest w1) as [[[??]?]|]; [|done].
      by rewrite (assoc_L (++)).
Qed.

(** *** Claims *)

(** C9: [Copy] is [CopyButSkipSome] with an empty skip list: the two
    computations are the same, so they return the same result, leave the same
    world and make the same calls; and an empty skip list skips nothing. *)
Theorem Copy_is_CopyButSkipSome_nil depth src dest (opt : list (Options path)) :
  Copy depth src dest opt = CopyButSkipSome depth src dest [] opt
  ∧ toSkipMap (path:=path) [] = ∅.
Proof. done. Qed.

(** C10: when the first [Lstat] of the source fails, [CopyButSkipSome]
    returns that error and does nothing else, also when the source is listed
    in the skip set: the stat comes before the membership test. *)
Theorem CopyButSkipSome_stat_error_first depth src dest skipList
    (opt : list (Options path)) w e w' :
  src ∈ toSkipMap skipList →
  os_Lstat src w = (inr e, w') →
  CopyButSkipSome depth src dest skipList opt w
    = Some (Some e, w', [EvLstat src (inr e)]).
Proof.
  intros _ Hstat. unfold CopyButSkipSome, bind, call_Lstat, call. by rewrite Hstat.
Qed.

(** C4: on a source path that is in the skip set the dispatcher returns nil
    at once: the world is unchanged and no call is made. *)
Theorem copy_skipped depth src dest toSkip info (opt : Options path) w :
  src ∈ toSkip →
  copy depth src dest toSkip info opt w = Some (None, w, []).
Proof. intros Hin. rewrite copy_unfold. by rewrite decide_True. Qed.

(** C8: on a symlink whose policy is Deep the dispatcher reads the link,
    lstats the target and dispatches on the target with the empty skip set
    and the caller's options, whatever skip set the caller had. *)
Theorem copy_Deep depth src dest toSkip info (opt : Options path) w :
  src ∉ toSkip → IsSymlink info = true → policy opt src = Deep →
  copy (S depth) src dest toSkip info opt w =
    match os_Readlink src w with
    | (inr e, w1) => Some (Some e, w1, [EvReadlink src (inr e)])
    | (inl orig, w1) =>
        match os_Lstat orig w1 with
        | (inr e, w2) =>
            Some (Some e, w2, [EvReadlink src (inl orig); EvLstat orig (inr e)])
        | (inl info', w2) =>
            match copy depth orig dest ∅ info' opt w2 with
            | Some (r, w3, t) =>
                Some (r, w3,
                      EvReadlink src (inl orig) :: EvLstat orig (inl info') :: t)
            | None => None
            end
        end
    end.
Proof.
  intros Hskip Hlink Hdeep. rewrite copy_unfold, decide_False, Hlink by done.
  unfold onsymlink. rewrite policy_defaulted, Hdeep.
  rewrite (policy_Deep_defaulted _ _ Hdeep).
  unfold bind, call_Readlink, call_Lstat, call, ret.
  destruct (os_Readlink src w) as [[orig|e] w1]; [|done].
  destruct (os_Lstat orig w1) as [[info'|e] w2]; [|done].
  by destruct (copy depth orig dest ∅ info' opt w2) as [[[??]?]|].
Qed.

(** C3: in a directory whose listing is [pre ++ c :: post], when the entries
    of [pre] are copied without error and the copy of [c] returns the error
    [e], the directory copy returns [e] itself, and after the calls of [c]
    it makes one more call, the deferred chmod: nothing is done for [post]. *)
Theorem dcopy_stops_at_first_error depth srcdir destdir toSkip info
    (opt : Options path) w w1 pre c post w2 w3 t3 e w4 t4 :
  srcdir ∉ toSkip → IsSymlink info = false → IsDir info = true →
  os_MkdirAll destdir tmpPermissionForDirectory w = (None, w1) →
  ioutil_ReadDir srcdir w1 = (inl (pre ++ c :: post), w2) →
  dcopy_range (copy depth) srcdir destdir toSkip opt pre w2
    = Some (None, w3, t3) →
  copy depth (filepath_Join srcdir (Name c)) (filepath_Join destdir (Name c))
    toSkip c opt w3 = Some (Some e, w4, t4) →
  copy (S depth) srcdir destdir toSkip info opt w =
    Some (Some e, (os_Chmod destdir (Mode info) w4).2,
          EvMkdirAll destdir tmpPermissionForDirectory None
          :: EvReadDir srcdir (inl (pre ++ c :: post))
          :: t3 ++ t4
          ++ [EvChmod destdir (Mode info) (os_Chmod destdir (Mode info) w4).1]).
Proof.
  intros Hskip Hlink Hdir Hmk Hls Hpre Hc.
  rewrite copy_unfold, decide_False, Hlink, Hdir by done.
  unfold dcopy, defer, chmod.
  unfold bind at 1. unfold call_MkdirAll at 1, call at 1. rewrite Hmk.
  unfold bind at 1. unfold bind at 1.
  unfold call_ReadDir at 1, call at 1. rewrite Hls.
  rewrite (dcopy_range_app _ _ _ _ _ _ (c :: post) _ _ _ Hpre). simpl.
  unfold bind at 1. rewrite Hc. unfold ret at 1.
  unfold bind, call_Chmod, call, ret.
  destruct (os_Chmod destdir (Mode info) w4) as [ce w5]. simpl.
  by rewrite !(right_id_L [] (++)), <-!(assoc_L (++)).
Qed.

(** *** First error wins *)

Lemma reports_first_ret_nil : reports_first (ret None : comp (option err)).
Proof. by intros w r w' t (-> & -> & ->)%ret_Some. Qed.

(** A call whose error stops the function, and the rest otherwise. *)
Lemma reports_first_step (f : W → option err * W) ev (k : comp (option err)) :
  (∀ x, ev_error (ev x) = x) → reports_first k →
  reports_first (bind (call f ev)
                   (λ e, match e with Some _ => ret e | None => k end)).
Proof.
  intros Hev Hk w r w' t (e & w1 & t1 & t2 & [_ ->]%call_Some & Hrest & ->)%bind_Some.
  simpl. rewrite Hev. destruct e as [x|].
  - by apply ret_Some in Hrest as (-> & _ & ->).
  - by apply Hk in Hrest.
Qed.

Lemma reports_first_step_sum {A} (f : W → (A + err) * W) ev
    (k : A → comp (option err)) :
  (∀ x, ev_error (ev x) = match x with inl _ => None | inr e => Some e end) →
  (∀ a, reports_first (k a)) →
  reports_first (bind (call f ev)
                   (λ x, match x with inr e => ret (Some e) | inl a => k a end)).
Proof.
  intros Hev Hk w r w' t (x & w1 & t1 & t2 & [_ ->]%call_Some & Hrest & ->)%bind_Some.
  simpl. rewrite Hev. destruct x as [a|e].
  - by apply Hk in Hrest.
  - by apply ret_Some in Hrest as (-> & _ & ->).
Qed.

(** A deferred [fclose] or [chmod] after a body that reports its first
    error: the call is made, and its error counts when the body had none. *)
Lemma reports_first_defer (f : W → option err * W) ev (body : comp (option err)) :
  (∀ x, ev_error (ev x) = x) → reports_first body →
  reports_first
    (defer (λ reported,
              bind (call f ev)
                (λ e, ret (match reported with None => e | Some _ => reported end)))
       body).
Proof.
  intros Hev Hbody w r w' t. unfold defer.
  intros (rb & w1 & t1 & t2 & Hb & Hd & ->)%bind_Some.
  apply bind_Some in Hd as (e & w2 & t3 & t4 & [_ ->]%call_Some & Hret & ->).
  apply ret_Some in Hret as (-> & _ & ->).
  rewrite first_error_app, <-(Hbody _ _ _ _ Hb). simpl. rewrite Hev.
  by destruct rb, e.
Qed.

Lemma reports_first_fcopy src dest info : reports_first (fcopy src dest info).
Proof.
  unfold fcopy.
  apply reports_first_step; [done|].
  apply reports_first_step_sum; [by intros []|]. intros f.
  apply (reports_first_defer (file_Close f)); [done|].
  apply reports_first_step; [done|].
  apply reports_first_step_sum; [by intros []|]. intros s.
  apply (reports_first_defer (file_Close s)); [done|].
  intros w r w' t (x & w1 & t1 & t2 & [_ ->]%call_Some & Hret & ->)%bind_Some.
  apply ret_Some in Hret as (-> & _ & ->). simpl. by destruct (x.2).
Qed.

Lemma reports_first_lcopy src dest : reports_first (lcopy src dest).
Proof.
  unfold lcopy. apply reports_first_step_sum; [by intros []|]. intros orig.
  intros w r w' t [_ ->]%call_Some. simpl. by destruct r.
Qed.

Lemma reports_first_dcopy_range again srcdir destdir toSkip opt contents :
  (∀ s d k i o, reports_first (again s d k i o)) →
  reports_first (dcopy_range again srcdir destdir toSkip opt contents).
Proof.
  intros Hag. induction contents as [|c rest IH]; simpl.
  - apply reports_first_ret_nil.
  - intros w r w' t (e & w1 & t1 & t2 & Hc & Hrest & ->)%bind_Some.
    rewrite first_error_app, <-(Hag _ _ _ _ _ _ _ _ _ Hc). destruct e as [x|].
    + by apply ret_Some in Hrest as (-> & _ & ->).
    + by apply IH in Hrest.
Qed.

Lemma reports_first_dcopy again srcdir destdir toSkip info opt :
  (∀ s d k i o, reports_first (again s d k i o)) →
  reports_first (dcopy again srcdir destdir toSkip info opt).
Proof.
  intros Hag. unfold dcopy.
  apply reports_first_step; [done|].
  apply (reports_first_defer (os_Chmod destdir (Mode info))); [done|].
  apply reports_first_step_sum; [by intros []|]. intros contents.
  by apply reports_first_dcopy_range.
Qed.

Lemma reports_first_onsymlink again src dest info opt :
  (∀ s d k i o, reports_first (again s d k i o)) →
  reports_first (onsymlink again src dest info opt).
Proof.
  intros Hag. unfold onsymlink. destruct (policy _ src).
  - apply reports_first_lcopy.
  - apply reports_first_step_sum; [by intros []|]. intros orig.
    apply reports_first_step_sum; [by intros []|]. intros info'. apply Hag.
  - apply reports_first_ret_nil.
Qed.

Lemma reports_first_copy depth src dest toSkip info opt :
  reports_first (copy depth src dest toSkip info opt).
Proof.
  revert src dest toSkip info opt.
  assert (reports_first (out_of_depth : comp (option err))) as Hout by done.
  induction depth as [|depth IH]; intros src dest toSkip info opt;
    rewrite copy_unfold; (case_decide; [apply reports_first_ret_nil|]);
    (destruct (IsSymlink info);
      [apply reports_first_onsymlink; intros; first [apply Hout|apply IH]|]);
    (destruct (IsDir info);
      [apply reports_first_dcopy; intros; first [apply Hout|apply IH]
      |apply reports_first_fcopy]).
Qed.

(** Case analysis on the next call of a run that is in the goal. *)
Ltac next_call :=
  match goal with
  | |- context [os_MkdirAll ?a ?b ?c] => destruct (os_MkdirAll a b c) as [[?|] ?]
  | |- context [os_Create ?a ?c] => destruct (os_Create a c) as [[?|?] ?]
  | |- context [os_Chmod ?a ?b ?c] => destruct (os_Chmod a b c) as [[?|] ?]
  | |- context [os_Open ?a ?c] => destruct (os_Open a c) as [[?|?] ?]
  | |- context [os_Readlink ?a ?c] => destruct (os_Readlink a c) as [[?|?] ?]
  | |- context [os_Symlink ?a ?b ?c] => destruct (os_Symlink a b c) as [[?|] ?]
  | |- context [io_Copy ?a ?b ?c] => destruct (io_Copy a b c) as [[? [?|]] ?]
  | |- context [file_Close ?a ?c] => destruct (file_Close a c) as [[?|] ?]
  end; simpl.

(** [fcopy] always returns, and closes what it opened, last opened first. *)
Lemma fcopy_closes src dest info w :
  ∃ r w' t, fcopy src dest info w = Some (r, w', t)
            ∧ closed t = rev (opened t).
Proof.
  unfold fcopy, defer, fclose, bind, ret,
    call_MkdirAll, call_Create, call_Chmod, call_Open, call_IoCopy, call_Close, call.
  repeat next_call; eauto.
Qed.

(** C5: [fcopy] always returns; every handle it opened is closed when it
    returns, the last opened first; and its result is the first error in the
    order of the calls, among those of the body and those of the deferred
    closes.  The same holds of [dcopy] with its deferred chmod. *)
Theorem first_error_wins :
  (∀ src dest info w,
     ∃ r w' t, fcopy src dest info w = Some (r, w', t)
               ∧ r = first_error t ∧ closed t = rev (opened t))
  ∧ (∀ depth srcdir destdir toSkip info (opt : Options path) w r w' t,
       dcopy (copy depth) srcdir destdir toSkip info opt w = Some (r, w', t) →
       r = first_error t).
Proof.
  split.
  - intros src dest info w.
    destruct (fcopy_closes src dest info w) as (r & w' & t & Hrun & Hcl).
    exists r, w', t. split_and!; [done| |done].
    by apply (reports_first_fcopy src dest info w r w' t).
  - intros depth srcdir destdir toSkip info opt.
    apply reports_first_dcopy. intros. apply reports_first_copy.
Qed.

(** *** The skip set *)

Lemma skipped_untouched_nil toSkip : skipped_untouched toSkip ([] : trace).
Proof. intros e p Hin. by apply elem_of_nil in Hin. Qed.

Lemma skipped_untouched_app toSkip (t1 t2 : trace) :
  skipped_untouched toSkip t1 → skipped_untouched toSkip t2 →
  skipped_untouched toSkip (t1 ++ t2).
Proof. intros H1 H2 e p [?|?]%elem_of_app; eauto. Qed.

Lemma skipped_untouched_one toSkip (e : @event path File err) :
  (∀ p, source_access e = Some p → p ∉ toSkip) →
  skipped_untouched toSkip [e].
Proof. intros He e' p ->%list_elem_of_singleton. apply He. Qed.

Lemma no_deep_dereference_app opt (t1 t2 : trace) :
  no_deep_dereference opt (t1 ++ t2) →
  no_deep_dereference opt t1 ∧ no_deep_dereference opt t2.
Proof.
  intros Hno. split; intros p r Hin; apply (Hno p r), elem_of_app; auto.
Qed.

Lemma fcopy_skipped_untouched src dest info toSkip w r w' t :
  src ∉ toSkip →
  fcopy src dest info w = Some (r, w', t) → skipped_untouched toSkip t.
Proof.
  intros Hsrc. unfold fcopy, defer, fclose, bind, ret,
    call_MkdirAll, call_Create, call_Chmod, call_Open, call_IoCopy, call_Close, call.
  repeat next_call; intros; simplify_eq/=;
    repeat (apply skipped_untouched_nil
            || apply skipped_untouched_one
            || apply (skipped_untouched_app _ [_]));
    by intros ? [= <-].
Qed.

Lemma lcopy_skipped_untouched src dest toSkip w r w' t :
  src ∉ toSkip →
  lcopy src dest w = Some (r, w', t) → skipped_untouched toSkip t.
Proof.
  intros Hsrc. unfold lcopy, bind, ret, call_Readlink, call_Symlink, call.
  repeat next_call; intros; simplify_eq/=;
    repeat (apply skipped_untouched_nil
            || apply skipped_untouched_one
            || apply (skipped_untouched_app _ [_]));
    by intros ? [= <-].
Qed.

Lemma dcopy_range_skipped_untouched again srcdir destdir toSkip opt contents :
  (∀ s d i w r w' t,
     again s d toSkip i opt w = Some (r, w', t) →
     no_deep_dereference opt t → skipped_untouched toSkip t) →
  ∀ w r w' t,
    dcopy_range again srcdir destdir toSkip opt contents w = Some (r, w', t) →
    no_deep_dereference opt t → skipped_untouched toSkip t.
Proof.
  intros Hag. induction contents as [|c rest IH]; simpl; intros w r w' t.
  - intros (_ & _ & ->)%ret_Some _. apply skipped_untouched_nil.
  - intros (e & w1 & t1 & t2 & Hc & Hrest & ->)%bind_Some
      [Hno1 Hno2]%no_deep_dereference_app.
    apply skipped_untouched_app; [by eapply Hag|].
    destruct e as [x|].
    + apply ret_Some in Hrest as (_ & _ & ->). apply skipped_untouched_nil.
    + by eapply IH.
Qed.

Lemma copy_skipped_untouched depth src dest toSkip info (opt : Options path)
    w r w' t :
  copy depth src dest toSkip info opt w = Some (r, w', t) →
  no_deep_dereference opt t → skipped_untouched toSkip t.
Proof.
  revert src dest info w r w' t.
  induction depth as [|depth IH]; intros src dest info w r w' t;
    rewrite copy_unfold; (case_decide as Hskip;
      [intros (_ & _ & ->)%ret_Some _; apply skipped_untouched_nil|]).
  all: destruct (IsSymlink info).
  all: try (unfold onsymlink; rewrite policy_defaulted;
    destruct (policy opt src) eqn:Hpol;
    [ intros Hrun _; by eapply lcopy_skipped_untouched
    | intros (x & w1 & t1 & t2 & [_ ->]%call_Some & _ & ->)%bind_Some Hno;
      destruct (Hno src x); [apply elem_of_app; left; apply list_elem_of_here|done]
    | intros (_ & _ & ->)%ret_Some _; apply skipped_untouched_nil ]).
  all: destruct (IsDir info);
    [|intros Hrun _; by eapply fcopy_skipped_untouched].
  all: unfold dcopy, defer, chmod;
    intros (e & w1 & t1 & t2 & [_ ->]%call_Some & Hrest & ->)%bind_Some
      [_ Hno]%no_deep_dereference_app;
    (apply skipped_untouched_app; [by apply skipped_untouched_one|]);
    (destruct e as [x|];
      [apply ret_Some in Hrest as (_ & _ & ->); apply skipped_untouched_nil|]);
    apply bind_Some in Hrest as (rb & w2 & t3 & t4 & Hbody & Hch & ->);
    apply no_deep_dereference_app in Hno as [Hno _];
    (apply skipped_untouched_app;
      [|apply bind_Some in Hch as (ce & w3 & t5 & t6 & [_ ->]%call_Some
                                      & (_ & _ & ->)%ret_Some & ->);
        apply (skipped_untouched_app _ [_]);
          [by apply skipped_untouched_one|apply skipped_untouched_nil]]);
    apply bind_Some in Hbody as (ls & w4 & t7 & t8 & [_ ->]%call_Some & Hrange & ->);
    apply no_deep_dereference_app in Hno as [_ Hno];
    (apply (skipped_untouched_app _ [_]);
      [apply skipped_untouched_one; by intros ? [= <-]|]);
    (destruct ls as [contents|x];
      [|apply ret_Some in Hrange as (_ & _ & ->); apply skipped_untouched_nil]).
  - eapply dcopy_range_skipped_untouched; [|done..]. by intros.
  - eapply dcopy_range_skipped_untouched; [|done..].
    intros s d i ? ? ? ?. apply IH.
Qed.

(** C7, amended: in a traversal that dereferences no link under the Deep
    policy, no call reads or stats a path of the skip set. *)
Theorem skip_set_respected depth src dest toSkip info (opt : Options path)
    w r w' t :
  copy depth src dest toSkip info opt w = Some (r, w', t) →
  no_deep_dereference opt t →
  skipped_untouched toSkip t.
Proof. apply copy_skipped_untouched. Qed.

(** *** Relations that every call respects *)

Section Along.
Context (R : W → W → Prop) `{!Reflexive R, !Transitive R}.

Lemma moves_along_ret {A} (a : A) : moves_along R (ret a : comp A).
Proof. by intros w b w' t (_ & -> & _)%ret_Some. Qed.

Lemma moves_along_call {A} (f : W → A * W) (ev : A → event) :
  (∀ w, R w (f w).2) → moves_along R (call f ev : comp A).
Proof. intros Hf w a w' t [Hw _]%call_Some. specialize (Hf w). by rewrite Hw in Hf. Qed.

Lemma moves_along_bind {A B} (m : comp A) (k : A → comp B) :
  moves_along R m → (∀ a, moves_along R (k a)) → moves_along R (bind m k).
Proof.
  intros Hm Hk w b w' t (a & w1 & t1 & t2 & H1 & H2 & _)%bind_Some.
  etrans; [by eapply Hm|by eapply Hk].
Qed.

Hypothesis calls : calls_move_along R.

Ltac along :=
  repeat first
    [ apply moves_along_ret
    | apply moves_along_call; apply calls
    | apply moves_along_bind; [|intros ?]
    | match goal with
      | |- moves_along _ (match ?x with _ => _ end) => destruct x
      end ].

Lemma fcopy_moves_along src dest info : moves_along R (fcopy src dest info).
Proof.
  unfold fcopy, defer, fclose, call_MkdirAll, call_Create, call_Chmod,
    call_Open, call_IoCopy, call_Close.
  along.
Qed.

Lemma lcopy_moves_along src dest : moves_along R (lcopy src dest).
Proof. unfold lcopy, call_Readlink, call_Symlink. along. Qed.

Lemma dcopy_range_moves_along again srcdir destdir toSkip opt contents :
  (∀ s d k i o, moves_along R (again s d k i o)) →
  moves_along R (dcopy_range again srcdir destdir toSkip opt contents).
Proof.
  intros Hag. induction contents as [|c rest IH]; simpl; [apply moves_along_ret|].
  apply moves_along_bind; [apply Hag|]. intros [x|]; [apply moves_along_ret|done].
Qed.

Lemma copy_moves_along depth src dest toSkip info opt :
  moves_along R (copy depth src dest toSkip info opt).
Proof.
  revert src dest toSkip info opt.
  assert (moves_along R (out_of_depth : comp (option err))) as Hout by done.
  induction depth as [|depth IH]; intros src dest toSkip info opt;
    rewrite copy_unfold; (case_decide; [apply moves_along_ret|]);
    (destruct (IsSymlink info);
      [unfold onsymlink, call_Readlink, call_Lstat;
       destruct (policy _ src); [apply lcopy_moves_along| |apply moves_along_ret];
       along; first [apply Hout|apply IH]|]);
    (destruct (IsDir info); [|apply fcopy_moves_along]);
    unfold dcopy, defer, chmod, call_MkdirAll, call_ReadDir, call_Chmod; along;
    apply dcopy_range_moves_along; intros; first [apply Hout|apply IH].
Qed.

End Along.

End ProgramFacts.

(** * Properties of the program on the in-memory filesystem *)

Section MemFSFacts.

Import MemFS.

Local Abbreviation comp := (@M path handle memfs errno).
Local Abbreviation trace := (list (@event path handle errno)).
Implicit Types (fs : memfs) (ns : gmap (list string) node) (p q : path)
  (t : trace) (r : option errno) (toSkip : gset path) (opt : Options path).

(** *** Mode bits *)




Lemma IsSymlink_File p c m : IsSymlink (info_of p (File c m)) = false.
Proof.
  unfold IsSymlink. simpl. rewrite <-Z.land_assoc.
  change (Z.land chmod_mask ModeSymlink) with 0. by rewrite Z.land_0_r.
Qed.

Lemma IsDir_File p c m : IsDir (info_of p (File c m)) = false.
Proof.
  unfold IsDir. simpl. rewrite <-Z.land_assoc.
  change (Z.land chmod_mask ModeDir) with 0. by rewrite Z.land_0_r.
Qed.

(** *** The calls, one by one *)




(** [mkdir_all] leaves a directory alone. *)
Lemma mkdir_all_is_dir perm p ns : is_dir ns p → mkdir_all perm p ns = (None, ns).
Proof. intros [m Hp]. destruct p; simpl; by rewrite Hp. Qed.

(** [mkdir_all] changes nothing but missing ancestors of [p], [p] included,
    which become directories; and without an error [p] is a directory. *)
Lemma mkdir_all_spec perm p ns e ns' :
  mkdir_all perm p ns = (e, ns') →
  (∀ q, ns' !! q = ns !! q
        ∨ (ns !! q = None ∧ q `suffix_of` p ∧ ns' !! q = Some (Dir perm)))
  ∧ (e = None → is_dir ns' p).
Proof.
  revert e ns'. induction p as [|name parent IH]; intros e ns'; simpl.
  - destruct (ns !! []) as [[]|] eqn:Hp; intros [= <- <-];
      (split; [|try done]); try (by left).
    + intros _. by eexists.
    + intros q. destruct (decide (q = [])) as [->|Hne].
      * right. by rewrite lookup_insert_eq.
      * left. by rewrite lookup_insert_ne.
    + intros _. eexists. apply lookup_insert_eq.
  - destruct (ns !! (name :: parent)) as [[]|] eqn:Hp;
      [intros [= <- <-]; split; [by left|done]
      |intros [= <- <-]; split; [by left|intros _; by eexists]
      |intros [= <- <-]; split; [by left|done]|].
    destruct (mkdir_all perm parent ns) as [[x|] ns1] eqn:Hrec;
      destruct (IH _ _ eq_refl) as [Hch Hdir]; intros [= <- <-].
    + split; [|done]. intros q. destruct (Hch q) as [?|(? & ? & ?)]; [by left|].
      right. split_and!; [done| |done]. by apply suffix_cons_r.
    + split; [|intros _; eexists; apply lookup_insert_eq].
      intros q. destruct (decide (q = name :: parent)) as [->|Hne].
      * right. by rewrite lookup_insert_eq.
      * rewrite lookup_insert_ne by done.
        destruct (Hch q) as [?|(? & ? & ?)]; [by left|].
        right. split_and!; [done| |done]. by apply suffix_cons_r.
Qed.



Lemma fresh_fd_None (m : gmap nat path) : m !! fresh (dom m) = None.
Proof. apply not_elem_of_dom, is_fresh. Qed.

Lemma fresh_fd_ne (m : gmap nat path) p :
  fresh (dom (<[fresh (dom m) := p]> m)) ≠ fresh (dom m).
Proof.
  intros Heq. pose proof (is_fresh (dom (<[fresh (dom m) := p]> m))) as Hf.
  rewrite Heq in Hf. apply Hf. rewrite dom_insert_L. set_solver.
Qed.

Lemma Create_inl p fs f fs' :
  Create p fs = (inl f, fs') →
  ∃ m, f = mkHandle (fresh (dom (fds fs))) p
       ∧ fs' = mkFS (<[p := File [] m]> (nodes fs))
                 (<[fresh (dom (fds fs)) := p]> (fds fs)) (umask fs)
       ∧ ¬ is_dir (nodes fs) p.
Proof.
  unfold Create, parent_error, open_fd. intros Hc.
  repeat case_match; simplify_eq/=; eexists; (split_and!; [done..|]);
    intros [? ?]; congruence.
Qed.

Lemma Create_inr p fs e fs' : Create p fs = (inr e, fs') → fs' = fs.
Proof.
  unfold Create, parent_error, open_fd. intros Hc.
  by repeat case_match; simplify_eq/=.
Qed.

Lemma Chmod_None p mode fs fs' :
  Chmod p mode fs = (None, fs') →
  ∃ n, fs' = set_nodes fs (<[p := n]> (nodes fs))
       ∧ ((∃ c m, nodes fs !! p = Some (File c m)
                  ∧ n = File c (Z.land mode chmod_mask))
          ∨ (∃ m, nodes fs !! p = Some (Dir m)
                  ∧ n = Dir (Z.land mode chmod_mask))).
Proof.
  unfold Chmod. intros Hc. repeat case_match; simplify_eq/=;
    eexists; (split; [done|]); eauto.
Qed.

Lemma Chmod_Some p mode fs e fs' : Chmod p mode fs = (Some e, fs') → fs' = fs.
Proof. unfold Chmod. intros Hc. by repeat case_match; simplify_eq/=. Qed.

Lemma Open_inl p fs s fs' :
  Open p fs = (inl s, fs') →
  s = mkHandle (fresh (dom (fds fs))) p
  ∧ fs' = mkFS (nodes fs) (<[fresh (dom (fds fs)) := p]> (fds fs)) (umask fs).
Proof.
  unfold Open, open_fd. intros Hc. by repeat case_match; simplify_eq/=.
Qed.

Lemma Open_inr p fs e fs' : Open p fs = (inr e, fs') → fs' = fs.
Proof. unfold Open, open_fd. intros Hc. by repeat case_match; simplify_eq/=. Qed.

Lemma IoCopy_None dst src fs n fs' :
  IoCopy dst src fs = ((n, None), fs') →
  ∃ ps pd cs ms cd md,
    fds fs !! fd src = Some ps ∧ fds fs !! fd dst = Some pd
    ∧ nodes fs !! ps = Some (File cs ms) ∧ nodes fs !! pd = Some (File cd md)
    ∧ fs' = set_nodes fs
              (<[pd := File (cs ++ drop (length cs) cd) md]> (nodes fs)).
Proof.
  unfold IoCopy. intros Hc. repeat case_match; simplify_eq/=.
  by repeat eexists.
Qed.

Lemma IoCopy_Some dst src fs n e fs' :
  IoCopy dst src fs = ((n, Some e), fs') → fs' = fs.
Proof. unfold IoCopy. intros Hc. by repeat case_match; simplify_eq/=. Qed.

Lemma Close_spec h fs e fs' :
  Close h fs = (e, fs') →
  fs' = mkFS (nodes fs) (delete (fd h) (fds fs)) (umask fs).
Proof.
  unfold Close. destruct fs as [ns fd0 um]; simpl. intros Hc.
  repeat case_match; simplify_eq/=; [done|]. by rewrite delete_id.
Qed.

Lemma Symlink_None o p fs fs' :
  Symlink o p fs = (None, fs') →
  nodes fs !! p = None ∧ fs' = set_nodes fs (<[p := Link o]> (nodes fs)).
Proof.
  unfold Symlink, parent_error. intros Hc. by repeat case_match; simplify_eq/=.
Qed.

Lemma Symlink_Some o p fs e fs' : Symlink o p fs = (Some e, fs') → fs' = fs.
Proof.
  unfold Symlink, parent_error. intros Hc. by repeat case_match; simplify_eq/=.
Qed.

Lemma Lstat_same p fs : (Lstat p fs).2 = fs.
Proof. unfold Lstat. by case_match. Qed.

Lemma Readlink_same p fs : (Readlink p fs).2 = fs.
Proof. unfold Readlink. by repeat case_match. Qed.

Lemma ReadDir_same p fs : (ReadDir p fs).2 = fs.
Proof. unfold ReadDir. by repeat case_match. Qed.

(** What a run of [fcopy] does: the parents of [dest] are made, nothing else
    changes but [dest], no descriptor stays open, and when it succeeds
    [dest] holds the bytes that [src] had once [dest] was created. *)
Lemma fcopy_run src dest info fs r fs' t :
  fcopy src dest info fs = Some (r, fs', t) →
  ∃ e1 ns1,
    mkdir_all (new_perm fs ModePerm) (tail dest) (nodes fs) = (e1, ns1)
    ∧ (∀ q, q ≠ dest → nodes fs' !! q = ns1 !! q)
    ∧ fds fs' = fds fs ∧ umask fs' = umask fs
    ∧ (r = None →
       is_dir ns1 (tail dest)
       ∧ (src ≠ dest →
          ∃ c m, ns1 !! src = Some (File c m)
                 ∧ nodes fs' !! dest =
                     Some (File c (Z.land (Mode info) chmod_mask)))).
Proof.
  intros Hrun. unfold fcopy in Hrun.
  apply bind_Some in Hrun as (e1 & fs1 & ? & ? & [Hmk _]%call_Some & Hrun & _).
  simpl in Hmk. unfold MkdirAll in Hmk.
  destruct (mkdir_all _ (tail dest) (nodes fs)) as [e1' ns1] eqn:Hm.
  simplify_eq. exists e1, ns1. split; [done|].
  destruct (mkdir_all_spec _ _ _ _ _ Hm) as [_ Hdir].
  destruct e1 as [?|].
  { apply ret_Some in Hrun as (-> & -> & _). by destruct fs. }
  specialize (Hdir eq_refl).
  apply bind_Some in Hrun as (rc & fs2 & ? & ? & [Hc _]%call_Some & Hrun & _).
  simpl in Hc. destruct rc as [f|e].
  2:{ apply Create_inr in Hc as ->.
      apply ret_Some in Hrun as (-> & -> & _). by destruct fs. }
  apply Create_inl in Hc as (m0 & -> & -> & Hnd). simpl in *.
  set (n0 := fresh (dom (fds fs))) in *.
  assert (fds fs !! n0 = None) as Hn0 by apply fresh_fd_None.
  unfold defer in Hrun.
  apply bind_Some in Hrun as (rb & fs3 & ? & ? & Hbody & Hcl & _).
  unfold fclose in Hcl.
  apply bind_Some in Hcl as (ecl & fs4 & ? & ? & [Hcl _]%call_Some & Hret & _).
  apply ret_Some in Hret as (-> & -> & _).
  simpl in Hcl. apply Close_spec in Hcl as ->. simpl.
  apply bind_Some in Hbody as (ech & fs5 & ? & ? & [Hch _]%call_Some & Hbody & _).
  simpl in Hch. destruct ech as [?|].
  { apply Chmod_Some in Hch as ->.
    apply ret_Some in Hbody as (-> & -> & _). simpl.
    rewrite delete_insert_eq, delete_id by done.
    split_and!; [|done..]. intros q Hq. by rewrite lookup_insert_ne. }
  apply Chmod_None in Hch as (n & -> & Hn). simpl in Hn.
  rewrite lookup_insert_eq in Hn.
  destruct Hn as [(c0 & m1 & [= <- <-] & ->)|(? & [=] & _)].
  unfold set_nodes in Hbody. simpl in Hbody. rewrite insert_insert_eq in Hbody.
  apply bind_Some in Hbody as (ro & fs6 & ? & ? & [Ho _]%call_Some & Hbody & _).
  simpl in Ho. destruct ro as [s|e].
  2:{ apply Open_inr in Ho as ->.
      apply ret_Some in Hbody as (-> & -> & _). simpl.
      rewrite delete_insert_eq, delete_id by done.
      split_and!; [|done..]. intros q Hq. by rewrite lookup_insert_ne. }
  apply Open_inl in Ho as [-> ->]. simpl in *.
  set (n1 := fresh (dom (<[n0:=dest]> (fds fs)))) in *.
  assert (n1 ≠ n0) as Hn1 by apply fresh_fd_ne.
  assert ((<[n0:=dest]> (fds fs)) !! n1 = None) as Hn1' by apply fresh_fd_None.
  unfold defer, fclose in Hbody.
  apply bind_Some in Hbody as (rio & fs7 & ? & ? & Hio & Hcl & _).
  apply bind_Some in Hcl as (ecl' & fs8 & ? & ? & [Hcl _]%call_Some & Hret & _).
  apply ret_Some in Hret as (-> & -> & _).
  simpl in Hcl. apply Close_spec in Hcl as ->. simpl.
  apply bind_Some in Hio as ([n eio] & fs9 & ? & ? & [Hio _]%call_Some & Hret & _).
  apply ret_Some in Hret as (-> & -> & _). simpl in *.
  destruct eio as [?|].
  { apply IoCopy_Some in Hio as ->. simpl.
    rewrite delete_insert_eq, (delete_id _ n1), delete_insert_eq, delete_id by done.
    split_and!; [|done..]. intros q Hq. by rewrite lookup_insert_ne. }
  apply IoCopy_None in Hio
    as (ps & pd & cs & ms & cd & md & Hps & Hpd & Hcs & Hcd & ->).
  simpl in *. rewrite lookup_insert_eq in Hps.
  rewrite lookup_insert_ne, lookup_insert_eq in Hpd by done. simplify_eq.
  rewrite lookup_insert_eq in Hcd. simplify_eq.
  rewrite insert_insert_eq.
  rewrite delete_insert_eq, (delete_id _ n1), delete_insert_eq, delete_id by done.
  split_and!; [|done..|].
  { intros q Hq. by rewrite lookup_insert_ne. }
  intros _. split; [done|]. intros Hne. rewrite lookup_insert_eq.
  rewrite lookup_insert_ne in Hcs by done.
  exists cs, ms. split; [done|]. by rewrite drop_nil, (right_id_L [] (++)).
Qed.

(** *** Directories stay directories *)

#[local] Instance keeps_dirs_refl : Reflexive keeps_dirs.
Proof. by intros fs p. Qed.

#[local] Instance keeps_dirs_trans : Transitive keeps_dirs.
Proof. intros fs1 fs2 fs3 H12 H23 p Hp. by apply H23, H12. Qed.








(** *** Claims *)



(** *** A copy changes the tree at its destination only *)











(** *** Listings *)







(** *** A finished copy *)






(** *** Paths of two trees that do not meet *)




(** *** A second run over a finished copy *)



(** *** A first run leaves a finished copy *)






End MemFSFacts.

(** * The claims on concrete filesystems *)

Section Concrete.

Import MemFS Examples.
Local Open Scope string_scope.
Local Open Scope list_scope.



(** Decide a closed decidable proposition by evaluation. *)
Ltac by_evaluation := apply (bool_decide_unpack _); vm_compute; exact I.




(** C7 fails under the Deep policy: [/t/x] is in the skip set, and the copy
    of [/a], which reaches [/t] through the link [/a/l], opens it. *)
Lemma skip_set_dropped_under_Deep :
  ¬ skipped_never_read 3 ["a"] ["out"] {[ ["x"; "t"] ]} info_a (always Deep)
      fs_tree.
Proof.
  intros Hclaim.
  pose (run := copy 3 ["a"] ["out"] {[ ["x"; "t"] ]} info_a (always Deep) fs_tree).
  specialize (Hclaim (result_of run) (state_of fs_tree run) (trace_of run)).
  apply (Hclaim ltac:(vm_compute; reflexivity)
           (EvOpen ["x"; "t"] (inl {| fd := 1; fname := ["x"; "t"] |}))
           ["x"; "t"]).
  - apply (list_elem_of_lookup_2 _ 23). vm_compute. reflexivity.
  - reflexivity.
  - by apply elem_of_singleton.
Qed.

Lemma skip_set_respected_witness :
  skipped_untouched {[ ["g"; "a"] ]}
    (trace_of (copy 1 ["a"] ["out"] {[ ["g"; "a"] ]} info_a DefaultOptions
                 fs_tree)).
Proof.
  apply (skip_set_respected 1 ["a"] ["out"] {[ ["g"; "a"] ]} info_a
           DefaultOptions fs_tree
           (result_of (copy 1 ["a"] ["out"] {[ ["g"; "a"] ]} info_a
                         DefaultOptions fs_tree))
           (state_of fs_tree (copy 1 ["a"] ["out"] {[ ["g"; "a"] ]} info_a
                                DefaultOptions fs_tree))).
  - vm_compute. reflexivity.
  - intros p r _. discriminate.
Defined.

Lemma copy_skipped_witness :
  copy 0 ["g"; "a"] ["g"; "out"] {[ ["g"; "a"] ]} info_g DefaultOptions fs_tree
    = Some (None, fs_tree, []).
Proof. apply copy_skipped. by apply elem_of_singleton. Defined.

Lemma CopyButSkipSome_stat_error_first_witness :
  CopyButSkipSome 0 ["nope"] ["out"] [["nope"]] [] fs_file
    = Some (Some ENOENT, fs_file, [EvLstat ["nope"] (inr ENOENT)]).
Proof.
  apply CopyButSkipSome_stat_error_first.
  - by_evaluation.
  - vm_compute. reflexivity.
Defined.

Lemma copy_Deep_witness :
  copy 2 ["l"; "a"] ["l"; "out"] {[ ["x"; "t"] ]} info_l (always Deep) fs_tree
    = match copy 1 ["t"] ["l"; "out"] ∅ (info_of ["t"] (Dir 0x1ed))
              (always Deep) fs_tree with
      | Some (r, fs', t) =>
          Some (r, fs',
                EvReadlink ["l"; "a"] (inl ["t"])
                :: EvLstat ["t"] (inl (info_of ["t"] (Dir 0x1ed))) :: t)
      | None => None
      end.
Proof.
  rewrite (copy_Deep 1 ["l"; "a"] ["l"; "out"] {[ ["x"; "t"] ]} info_l
             (always Deep) fs_tree).
  - reflexivity.
  - by_evaluation.
  - reflexivity.
  - reflexivity.
Defined.

Lemma dcopy_stops_at_first_error_witness :
  copy 1 ["a"] ["out"] ∅ info_a DefaultOptions fs_blocked
    = Some (Some EISDIR, blocked_end.2,
            EvMkdirAll ["out"] tmpPermissionForDirectory None
            :: EvReadDir ["a"] (inl ([info_f] ++ info_g :: [info_l]))
            :: trace_of blocked_pre ++ trace_of blocked_g
            ++ [EvChmod ["out"] (Mode info_a) blocked_end.1]).
Proof.
  unfold blocked_end.
  refine (dcopy_stops_at_first_error 0 ["a"] ["out"] ∅ info_a DefaultOptions
            fs_blocked blocked_1 [info_f] info_g [info_l] blocked_1
            (state_of blocked_1 blocked_pre) (trace_of blocked_pre)
            EISDIR (state_of blocked_1 blocked_g) (trace_of blocked_g)
            _ _ _ _ _ _ _).
  - by_evaluation.
  - reflexivity.
  - reflexivity.
  - vm_compute. reflexivity.
  - vm_compute. reflexivity.
  - vm_compute. reflexivity.
  - vm_compute. reflexivity.
Defined.

Lemma first_error_wins_witness :
  (∃ r w' t, fcopy ["f"] ["g"] info_f (fs_file, [Some EIO; Some EBADF])
             = Some (r, w', t)
             ∧ r = first_error t ∧ closed t = rev (opened t))
  ∧ result_of (dcopy (copy 1) ["a"] ["out"] ∅ info_a DefaultOptions fs_blocked)
    = first_error
        (trace_of (dcopy (copy 1) ["a"] ["out"] ∅ info_a DefaultOptions
                     fs_blocked)).
Proof.
  split.
  - apply (proj1 (first_error_wins (H0:=Faulty.faulty_OS))).
  - apply (proj2 first_error_wins 1%nat ["a"] ["out"] ∅ info_a DefaultOptions
             fs_blocked _
             (state_of fs_blocked
                (dcopy (copy 1) ["a"] ["out"] ∅ info_a DefaultOptions
                   fs_blocked))).
    vm_compute. reflexivity.
Defined.

(** When both closes fail after a body without error, the error of the
    first close, that of the source, is the result. *)
Example fcopy_first_close_error :
  result_of (fcopy ["f"] ["g"] info_f (fs_file, [Some EIO; Some EBADF]))
    = Some EIO.
Proof. vm_compute. reflexivity. Qed.

(** When the body fails, here on a source that is not there, the error of
    the close is dropped. *)
Example fcopy_body_error_kept :
  result_of (fcopy ["nope"] ["g"] info_f (fs_file, [Some EIO]))
    = Some ENOENT.
Proof. vm_compute. reflexivity. Qed.

End Concrete.


(** * More about the program, for every behaviour of the system calls *)

Section ProgramFurther.

Context {path File W err : Type} `{Countable path} `{!@OS path File W err}.

Local Abbreviation comp := (@M path File W err).
Local Abbreviation trace := (list (@event path File err)).
Implicit Types (w : W) (t : trace) (r : option err) (toSkip : gset path).

(** *** The skip map *)

Lemma toSkipMap_from (acc : gset path) (skipList : list path) p :
  p ∈ foldl (λ m s, {[ filepath_FromSlash s ]} ∪ m) acc skipList ↔
  p ∈ acc ∨ ∃ s, s ∈ skipList ∧ filepath_FromSlash s = p.
Proof.
  revert acc. induction skipList as [|s rest IH]; intros acc; simpl.
  - split; [by left|]. intros [?|(s & Hs & _)]; [done|].
    by apply elem_of_nil in Hs.
  - rewrite IH, elem_of_union, elem_of_singleton. split.
    + intros [[->|?]|(s' & Hs' & <-)]; [right|by left|right].
      * exists s. split; [by left|done].
      * exists s'. split; [by right|done].
    + intros [?|(s' & [->|Hs']%elem_of_cons & <-)];
        [left; by right|left; by left|right; by exists s'].
  Qed.

(** X1: a path is in the skip map exactly when it is [filepath.FromSlash] of
    a string of the skip list: the order of the list and its repetitions do
    not count, and an empty list skips nothing. *)
Theorem toSkipMap_spec (skipList : list path) p :
  p ∈ toSkipMap skipList ↔ ∃ s, s ∈ skipList ∧ filepath_FromSlash s = p.
Proof.
  unfold toSkipMap. rewrite toSkipMap_from. split; [|by right].
  intros [Hin|?]; [|done]. by apply not_elem_of_empty in Hin.
Qed.

(** *** Options *)

Lemma bind_call_eq {A B} (f : W → A * W) (ev : A → event) (k1 k2 : A → comp B) w :
  (∀ a w', k1 a w' = k2 a w') →
  bind (call f ev) k1 w = bind (call f ev) k2 w.
Proof.
  intros Hk. unfold bind, call. destruct (f w) as [a w']. by rewrite Hk.
Qed.

Lemma bind_eq {A B} (m1 m2 : comp A) (k1 k2 : A → comp B) w :
  m1 w = m2 w → (∀ a w', k1 a w' = k2 a w') →
  bind m1 k1 w = bind m2 k2 w.
Proof.
  intros Hm Hk. unfold bind. rewrite Hm.
  destruct (m2 w) as [[[a w'] t1]|]; [|done]. by rewrite Hk.
Qed.

Lemma dcopy_range_ext (again1 again2 : dispatcher) srcdir destdir toSkip
    (o1 o2 : Options path) contents w :
  (∀ s d i w, again1 s d toSkip i o1 w = again2 s d toSkip i o2 w) →
  dcopy_range again1 srcdir destdir toSkip o1 contents w
  = dcopy_range again2 srcdir destdir toSkip o2 contents w.
Proof.
  intros Hag. revert w. induction contents as [|c rest IH]; intros w; [done|].
  simpl. apply bind_eq; [apply Hag|]. intros [e|] w'; [done|apply IH].
Qed.

Lemma dcopy_ext (again1 again2 : dispatcher) srcdir destdir toSkip info
    (o1 o2 : Options path) w :
  (∀ s d i w, again1 s d toSkip i o1 w = again2 s d toSkip i o2 w) →
  dcopy again1 srcdir destdir toSkip info o1 w
  = dcopy again2 srcdir destdir toSkip info o2 w.
Proof.
  intros Hag. unfold dcopy, defer.
  apply bind_call_eq. intros [e|] w1; [done|].
  apply bind_eq; [|done]. apply bind_call_eq. intros [contents|e] w2; [|done].
  by apply dcopy_range_ext.
Qed.

Lemma copy_nil_hook depth src dest toSkip info w :
  copy depth src dest toSkip info {| OnSymlink := None |} w
  = copy depth src dest toSkip info DefaultOptions w.
Proof.
  revert src dest toSkip info w.
  induction depth as [|depth IH]; intros src dest toSkip info w;
    rewrite !copy_unfold; (case_decide; [done|]);
    (destruct (IsSymlink info); [done|]);
    (destruct (IsDir info); [|done]); apply dcopy_ext; [done|].
  intros. apply IH.
Qed.

(** X2: options whose hook is nil are the default options, and only the first
    of the options given counts: [CopyButSkipSome] with such options first,
    whatever follows them, is [CopyButSkipSome] without options. *)
Theorem CopyButSkipSome_nil_hook depth src dest skipList
    (rest : list (Options path)) w :
  CopyButSkipSome depth src dest skipList ({| OnSymlink := None |} :: rest) w
  = CopyButSkipSome depth src dest skipList [] w.
Proof.
  unfold CopyButSkipSome. apply bind_call_eq. intros [info|e] w'; [|done].
  apply copy_nil_hook.
Qed.

(** X3: on a symlink whose policy is Skip the dispatcher returns nil and makes
    no call, whether the link is in the skip set or not. *)
Theorem copy_Skip depth src dest toSkip info (opt : Options path) w :
  IsSymlink info = true → policy opt src = Skip →
  copy depth src dest toSkip info opt w = Some (None, w, []).
Proof.
  intros Hlink Hpol. rewrite copy_unfold, Hlink. case_decide; [done|].
  unfold onsymlink. by rewrite policy_defaulted, Hpol.
Qed.

(** X4: when the source itself is in the skip set and its [Lstat] succeeds,
    [CopyButSkipSome] returns nil and the [Lstat] is the one call it makes. *)
Theorem CopyButSkipSome_source_skipped depth src dest skipList
    (opt : list (Options path)) w info w' :
  src ∈ toSkipMap skipList →
  os_Lstat src w = (inl info, w') →
  CopyButSkipSome depth src dest skipList opt w
    = Some (None, w', [EvLstat src (inl info)]).
Proof.
  intros Hin Hstat. unfold CopyButSkipSome, bind, call_Lstat, call.
  rewrite Hstat, copy_unfold. by rewrite decide_True.
Qed.

(** *** The error of the whole traversal *)

Lemma first_error_None (t : trace) :
  first_error t = None ↔ Forall (λ e, ev_error e = None) t.
Proof.
  induction t as [|e t IH]; simpl; [by split; [constructor|]|].
  rewrite Forall_cons. destruct (ev_error e).
  - split; [done|]. by intros [? _].
  - rewrite IH. split; [by intros|by intros [_ ?]].
Qed.

Lemma reports_first_CopyButSkipSome depth src dest skipList
    (opt : list (Options path)) :
  reports_first (CopyButSkipSome depth src dest skipList opt).
Proof.
  unfold CopyButSkipSome. apply reports_first_step_sum; [by intros []|].
  intros info. apply reports_first_copy.
Qed.

(** X5: the error [CopyButSkipSome] returns is the first error that a call
    reported, in the order of the calls; it returns nil exactly when no call
    of the traversal reported an error. *)
Theorem CopyButSkipSome_first_error depth src dest skipList
    (opt : list (Options path)) w r w' t :
  CopyButSkipSome depth src dest skipList opt w = Some (r, w', t) →
  r = first_error t ∧ (r = None ↔ Forall (λ e, ev_error e = None) t).
Proof.
  intros Hrun%reports_first_CopyButSkipSome. split; [done|].
  rewrite Hrun. apply first_error_None.
Qed.

(** *** Nothing goes on after an error *)

Lemma fails_fast_app (t1 t2 : trace) :
  fails_fast t1 →
  (first_error t1 = None → fails_fast t2) →
  (first_error t1 ≠ None → Forall is_cleanup t2) →
  fails_fast (t1 ++ t2).
Proof.
  induction t1 as [|e t1 IH]; simpl; [auto|].
  destruct (ev_error e); [|done].
  intros H1 _ H2. apply Forall_app. split; [done|]. by apply H2.
Qed.

Lemma fails_fast_one (e : @event path File err) : fails_fast [e].
Proof. simpl. by destruct (ev_error e). Qed.

(** A call whose error stops the function, and the rest otherwise. *)
Lemma fails_fast_step (f : W → option err * W) ev (k : comp (option err)) :
  (∀ x, ev_error (ev x) = x) →
  (∀ w r w' t, k w = Some (r, w', t) → fails_fast t) →
  ∀ w r w' t,
    bind (call f ev) (λ e, match e with Some _ => ret e | None => k end) w
    = Some (r, w', t) →
    fails_fast t.
Proof.
  intros Hev Hk w r w' t
    (e & w1 & t1 & t2 & [_ ->]%call_Some & Hrest & ->)%bind_Some.
  simpl. rewrite Hev. destruct e as [x|].
  - apply ret_Some in Hrest as (_ & _ & ->). constructor.
  - by eapply Hk.
Qed.

Lemma fails_fast_step_sum {A} (f : W → (A + err) * W) ev
    (k : A → comp (option err)) :
  (∀ x, ev_error (ev x) = match x with inl _ => None | inr e => Some e end) →
  (∀ a w r w' t, k a w = Some (r, w', t) → fails_fast t) →
  ∀ w r w' t,
    bind (call f ev)
      (λ x, match x with inr e => ret (Some e) | inl a => k a end) w
    = Some (r, w', t) →
    fails_fast t.
Proof.
  intros Hev Hk w r w' t
    (x & w1 & t1 & t2 & [_ ->]%call_Some & Hrest & ->)%bind_Some.
  simpl. rewrite Hev. destruct x as [a|e].
  - by eapply Hk.
  - apply ret_Some in Hrest as (_ & _ & ->). constructor.
Qed.

(** A deferred close or chmod after a body. *)
Lemma fails_fast_defer (f : W → option err * W) ev (body : comp (option err)) :
  (∀ x, is_cleanup (ev x)) →
  (∀ w r w' t, body w = Some (r, w', t) → fails_fast t) →
  ∀ w r w' t,
    defer (λ reported,
             bind (call f ev)
               (λ e, ret (match reported with None => e | Some _ => reported end)))
      body w = Some (r, w', t) →
    fails_fast t.
Proof.
  intros Hev Hbody w r w' t. unfold defer.
  intros (rb & w1 & t1 & t2 & Hb & Hd & ->)%bind_Some.
  apply bind_Some in Hd as (e & w2 & t3 & t4 & [_ ->]%call_Some & Hret & ->).
  apply ret_Some in Hret as (_ & _ & ->).
  apply fails_fast_app; [by eapply Hbody|intros _; apply fails_fast_one|].
  intros _. simpl. constructor; [apply Hev|constructor].
Qed.

Lemma fcopy_fails_fast src dest info w r w' t :
  fcopy src dest info w = Some (r, w', t) → fails_fast t.
Proof.
  revert w r w' t. unfold fcopy.
  apply fails_fast_step; [done|].
  apply fails_fast_step_sum; [by intros []|]. intros f.
  apply (fails_fast_defer (file_Close f)); [done|].
  apply fails_fast_step; [done|].
  apply fails_fast_step_sum; [by intros []|]. intros s.
  apply (fails_fast_defer (file_Close s)); [done|].
  intros w r w' t (x & w1 & t1 & t2 & [_ ->]%call_Some & Hret & ->)%bind_Some.
  apply ret_Some in Hret as (_ & _ & ->). apply fails_fast_one.
Qed.

Lemma lcopy_fails_fast src dest w r w' t :
  lcopy src dest w = Some (r, w', t) → fails_fast t.
Proof.
  revert w r w' t. unfold lcopy.
  apply fails_fast_step_sum; [by intros []|]. intros target.
  intros w r w' t [_ ->]%call_Some. apply fails_fast_one.
Qed.

Lemma dcopy_range_fails_fast (again : dispatcher) srcdir destdir toSkip opt
    contents :
  (∀ s d k i o, reports_first (again s d k i o)) →
  (∀ s d k i o w r w' t, again s d k i o w = Some (r, w', t) → fails_fast t) →
  ∀ w r w' t,
    dcopy_range again srcdir destdir toSkip opt contents w = Some (r, w', t) →
    fails_fast t.
Proof.
  intros Hrep Hag. induction contents as [|c rest IH]; simpl; intros w r w' t.
  - by intros (_ & _ & ->)%ret_Some.
  - intros (e & w1 & t1 & t2 & Hc & Hrest & ->)%bind_Some.
    pose proof (Hrep _ _ _ _ _ _ _ _ _ Hc) as He.
    apply fails_fast_app; [by eapply Hag| |].
    + intros Hnone. rewrite Hnone in He. subst e. by eapply IH.
    + intros Hsome. destruct e as [x|]; [|by rewrite <-He in Hsome].
      apply ret_Some in Hrest as (_ & _ & ->). constructor.
Qed.

Lemma dcopy_fails_fast (again : dispatcher) srcdir destdir toSkip info opt :
  (∀ s d k i o, reports_first (again s d k i o)) →
  (∀ s d k i o w r w' t, again s d k i o w = Some (r, w', t) → fails_fast t) →
  ∀ w r w' t,
    dcopy again srcdir destdir toSkip info opt w = Some (r, w', t) →
    fails_fast t.
Proof.
  intros Hrep Hag. unfold dcopy.
  apply fails_fast_step; [done|].
  apply (fails_fast_defer (os_Chmod destdir (Mode info))); [done|].
  apply fails_fast_step_sum; [by intros []|]. intros contents.
  by apply dcopy_range_fails_fast.
Qed.

Lemma copy_fails_fast depth src dest toSkip info (opt : Options path) w r w' t :
  copy depth src dest toSkip info opt w = Some (r, w', t) → fails_fast t.
Proof.
  revert src dest toSkip info opt w r w' t.
  induction depth as [|depth IH]; intros src dest toSkip info opt w r w' t;
    rewrite copy_unfold;
    (case_decide; [by intros (_ & _ & ->)%ret_Some|]).
  all: destruct (IsSymlink info);
    [unfold onsymlink; destruct (policy _ src);
     [apply lcopy_fails_fast
     |revert w r w' t;
      apply fails_fast_step_sum; [by intros []|]; intros target;
      apply fails_fast_step_sum; [by intros []|]; intros info'
     |by intros (_ & _ & ->)%ret_Some]
    |destruct (IsDir info); [|apply fcopy_fails_fast]].
  - intros w r w' t Hrun. discriminate Hrun.
  - apply dcopy_fails_fast.
    + intros s d k i o w0 r0 w0' t0 Hrun. discriminate Hrun.
    + intros s d k i o w0 r0 w0' t0 Hrun. discriminate Hrun.
  - intros w r w' t. apply IH.
  - apply dcopy_fails_fast; [intros; apply reports_first_copy|].
    intros s d k i o w0 r0 w0' t0. apply IH.
Qed.

(** X6: once a call of the traversal has reported an error, the calls that
    follow are closes and chmods only: nothing more is listed, opened,
    created, linked or copied. *)
Theorem CopyButSkipSome_fails_fast depth src dest skipList
    (opt : list (Options path)) w r w' t :
  CopyButSkipSome depth src dest skipList opt w = Some (r, w', t) →
  fails_fast t.
Proof.
  revert w r w' t. unfold CopyButSkipSome.
  apply fails_fast_step_sum; [by intros []|]. intros info w r w' t.
  apply copy_fails_fast.
Qed.

(** *** Handles *)

Lemma closed_app (t1 t2 : trace) : closed (t1 ++ t2) = closed t1 ++ closed t2.
Proof. apply omap_app. Qed.

Lemma opened_app (t1 t2 : trace) : opened (t1 ++ t2) = opened t1 ++ opened t2.
Proof. apply omap_app. Qed.

Lemma balanced_app (t1 t2 : trace) :
  closed t1 ≡ₚ opened t1 → closed t2 ≡ₚ opened t2 →
  closed (t1 ++ t2) ≡ₚ opened (t1 ++ t2).
Proof. intros H1 H2. by rewrite closed_app, opened_app, H1, H2. Qed.

Lemma dcopy_range_balanced (again : dispatcher) srcdir destdir toSkip opt
    contents :
  (∀ s d k i o w r w' t,
     again s d k i o w = Some (r, w', t) → closed t ≡ₚ opened t) →
  ∀ w r w' t,
    dcopy_range again srcdir destdir toSkip opt contents w = Some (r, w', t) →
    closed t ≡ₚ opened t.
Proof.
  intros Hag. induction contents as [|c rest IH]; simpl; intros w r w' t.
  - by intros (_ & _ & ->)%ret_Some.
  - intros (e & w1 & t1 & t2 & Hc & Hrest & ->)%bind_Some.
    apply balanced_app; [by eapply Hag|]. destruct e as [x|].
    + by apply ret_Some in Hrest as (_ & _ & ->).
    + by eapply IH.
Qed.

Lemma copy_balanced depth src dest toSkip info (opt : Options path) w r w' t :
  copy depth src dest toSkip info opt w = Some (r, w', t) →
  closed t ≡ₚ opened t.
Proof.
  revert src dest toSkip info opt w r w' t.
  induction depth as [|depth IH]; intros src dest toSkip info opt w r w' t;
    rewrite copy_unfold;
    (case_decide; [by intros (_ & _ & ->)%ret_Some|]).
  all: destruct (IsSymlink info);
    [unfold onsymlink, lcopy; destruct (policy _ src);
     [intros (x & w1 & ? & t2 & [_ ->]%call_Some & Hrest & ->)%bind_Some;
      destruct x as [target|e];
      [by apply call_Some in Hrest as [_ ->]
      |by apply ret_Some in Hrest as (_ & _ & ->)]
     |intros (x & w1 & ? & t2 & [_ ->]%call_Some & Hrest & ->)%bind_Some;
      (destruct x as [target|e];
        [|by apply ret_Some in Hrest as (_ & _ & ->)]);
      apply bind_Some in Hrest
        as (y & w2 & ? & t3 & [_ ->]%call_Some & Hrest & ->);
      (destruct y as [info'|e];
        [|by apply ret_Some in Hrest as (_ & _ & ->)]);
      simpl
     |by intros (_ & _ & ->)%ret_Some]
    |destruct (IsDir info);
     [unfold dcopy, defer, chmod;
      intros (e & w1 & ? & t2 & [_ ->]%call_Some & Hrest & ->)%bind_Some;
      (destruct e as [x|]; [by apply ret_Some in Hrest as (_ & _ & ->)|]);
      apply bind_Some in Hrest as (rb & w2 & tb & t3 & Hbody & Hch & ->);
      apply bind_Some in Hch
        as (ec & w3 & ? & ? & [_ ->]%call_Some & (_ & _ & ->)%ret_Some & ->);
      apply bind_Some in Hbody
        as (ls & w4 & ? & tr & [_ ->]%call_Some & Hrange & ->);
      rewrite !closed_app, !opened_app; simpl;
      rewrite !(right_id_L [] (++));
      (destruct ls as [contents|x];
        [|by apply ret_Some in Hrange as (_ & _ & ->)])
     |intros Hrun;
      destruct (fcopy_closes src dest info w) as (r0 & w0 & t0 & Hrun0 & Hcl);
      rewrite Hrun in Hrun0; simplify_eq;
      rewrite Hcl; symmetry; apply Permutation_rev]].
  - discriminate Hrest.
  - eapply dcopy_range_balanced; [|done].
    intros s d k i o w0 r0 w0' t0 Hnone. discriminate Hnone.
  - by eapply IH.
  - eapply dcopy_range_balanced; [|done].
    intros s d k i o w0 r0 w0' t0. apply IH.
Qed.

(** X7: when [CopyButSkipSome] returns, with or without an error, every handle
    that a call of the traversal opened has been closed: the closes of the
    trace are the handles it opened, each one once. *)
Theorem CopyButSkipSome_closes_all depth src dest skipList
    (opt : list (Options path)) w r w' t :
  CopyButSkipSome depth src dest skipList opt w = Some (r, w', t) →
  closed t ≡ₚ opened t.
Proof.
  unfold CopyButSkipSome.
  intros (x & w1 & ? & t2 & [_ ->]%call_Some & Hrest & ->)%bind_Some.
  destruct x as [info|e]; simpl.
  - by eapply copy_balanced.
  - by apply ret_Some in Hrest as (_ & _ & ->).
Qed.

(** *** The recursion bound *)





(** *** Entries of a listing that are skipped *)

Lemma dcopy_range_filter depth srcdir destdir toSkip (opt : Options path)
    contents w :
  dcopy_range (copy depth) srcdir destdir toSkip opt contents w
  = dcopy_range (copy depth) srcdir destdir toSkip opt
      (filter (λ c, filepath_Join srcdir (Name c) ∉ toSkip) contents) w.
Proof.
  revert w. induction contents as [|c rest IH]; intros w; [done|].
  rewrite filter_cons. case_decide as Hc.
  - simpl. unfold bind.
    destruct (copy depth _ _ toSkip c opt w) as [[[[e|] w1] t1]|]; [done| |done].
    by rewrite IH.
  - simpl. unfold bind at 1.
    rewrite copy_unfold, decide_True by done. simpl. rewrite IH.
    by destruct (dcopy_range _ _ _ _ _ _ w) as [[[e w1] t1]|].
Qed.

(** X9: the entries of a listing whose source path is in the skip set
    count for nothing: the loop of [dcopy] over the listing is the loop over
    the listing without them. *)
Theorem dcopy_range_skips depth srcdir destdir toSkip (opt : Options path)
    contents w :
  dcopy_range (copy depth) srcdir destdir toSkip opt contents w
  = dcopy_range (copy depth) srcdir destdir toSkip opt
      (filter (λ c, filepath_Join srcdir (Name c) ∉ toSkip) contents) w.
Proof. apply dcopy_range_filter. Qed.

(** *** Computations that return *)








End ProgramFurther.


(** * More about the program on the in-memory filesystem *)

Section MemFSFurther.

Import MemFS.

Local Abbreviation comp := (@M path handle memfs errno).
Local Abbreviation trace := (list (@event path handle errno)).
Implicit Types (fs : memfs) (ns : gmap (list string) node) (p q : path)
  (t : trace) (r : option errno) (toSkip : gset path) (opt : Options path).

(** *** What a copy leaves alone *)


#[local] Instance keeps_kinds_refl : Reflexive keeps_kinds.
Proof. intros fs p n Hp. by exists n. Qed.

#[local] Instance keeps_kinds_trans : Transitive keeps_kinds.
Proof.
  intros fs1 fs2 fs3 H12 H23 p n Hp.
  destruct (H12 p n Hp) as (n2 & Hp2 & Hk2).
  destruct (H23 p n2 Hp2) as (n3 & Hp3 & Hk3).
  exists n3. split; [done|congruence].
Qed.

Lemma keeps_kinds_insert fs p (n' : node) :
  (∀ n, nodes fs !! p = Some n → kind_of n' = kind_of n) →
  keeps_kinds fs (set_nodes fs (<[p := n']> (nodes fs))).
Proof.
  intros Hkind q n Hq. simpl. destruct (decide (p = q)) as [->|Hne].
  - exists n'. rewrite lookup_insert_eq. split; [done|by apply Hkind].
  - exists n. by rewrite lookup_insert_ne.
Qed.

Lemma Create_inl_kind p fs f fs' :
  Create p fs = (inl f, fs') →
  ∃ m, nodes fs' = <[p := File [] m]> (nodes fs)
       ∧ ∀ n, nodes fs !! p = Some n → kind_of n = KFile.
Proof.
  unfold Create, parent_error, open_fd. intros Hc.
  repeat case_match; simplify_eq/=; eexists; (split; [done|]);
    intros n' [= <-]; done.
Qed.

Lemma calls_keep_kinds : calls_move_along (W:=memfs) keeps_kinds.
Proof.
  repeat split; simpl.
  - intros p fs. by rewrite Lstat_same.
  - intros p m fs q n Hq. unfold MkdirAll.
    destruct (mkdir_all _ p (nodes fs)) as [e ns1] eqn:Hmk. simpl.
    apply mkdir_all_spec in Hmk as [Hch _].
    destruct (Hch q) as [Heq|(Hnone & _)]; [|congruence].
    exists n. by rewrite Heq.
  - intros p fs. destruct (Create p fs) as [[f|e] fs'] eqn:Hc; simpl.
    + pose proof Hc as (m0 & _ & -> & _)%Create_inl.
      apply Create_inl_kind in Hc as (m & _ & Hkind).
      apply (keeps_kinds_insert fs p (File [] m0)).
      intros n Hn. by rewrite (Hkind n Hn).
    + by apply Create_inr in Hc as ->.
  - intros p m fs. destruct (Chmod p m fs) as [[e|] fs'] eqn:Hc; simpl.
    + by apply Chmod_Some in Hc as ->.
    + apply Chmod_None in Hc
        as (n & -> & [(c & m' & Hp & ->)|(m' & Hp & ->)]);
        apply keeps_kinds_insert; intros n0 Hn0; by simplify_eq.
  - intros p fs q n Hq. destruct (Open p fs) as [[f|e] fs'] eqn:Hc; simpl.
    + apply Open_inl in Hc as [_ ->]. by exists n.
    + apply Open_inr in Hc as ->. by exists n.
  - intros p fs. by rewrite Readlink_same.
  - intros o n fs. destruct (Symlink o n fs) as [[e|] fs'] eqn:Hc; simpl.
    + by apply Symlink_Some in Hc as ->.
    + apply Symlink_None in Hc as [Hn ->].
      apply keeps_kinds_insert. intros n0 Hn0. congruence.
  - intros d s fs.
    destruct (IoCopy d s fs) as [[n [e|]] fs'] eqn:Hc; simpl.
    + by apply IoCopy_Some in Hc as ->.
    + apply IoCopy_None in Hc
        as (ps & pd & cs & ms & cd & md & _ & _ & _ & Hpd & ->).
      apply keeps_kinds_insert. intros n0 Hn0. by simplify_eq.
  - intros f fs q n Hq. destruct (Close f fs) as [e fs'] eqn:Hc; simpl.
    apply Close_spec in Hc as ->. by exists n.
  - intros p fs. by rewrite ReadDir_same.
Qed.

(** X11: [CopyButSkipSome] removes nothing and turns no entry into one of
    another kind: after the run, whatever it returned, every path that named
    a file, a directory or a symlink still names one of the same kind. *)
Theorem CopyButSkipSome_keeps_kinds depth src dest skipList
    (opts : list (Options path)) fs r fs' t :
  CopyButSkipSome depth src dest skipList opts fs = Some (r, fs', t) →
  keeps_kinds fs fs'.
Proof.
  unfold CopyButSkipSome.
  intros (ri & fs0 & ? & ? & [Hst _]%call_Some & Hrun & _)%bind_Some.
  simpl in Hst. pose proof (Lstat_same src fs) as Hsame.
  rewrite Hst in Hsame. simpl in Hsame. subst fs0.
  destruct ri as [info|e].
  - revert Hrun. apply (copy_moves_along keeps_kinds calls_keep_kinds).
  - by apply ret_Some in Hrun as (_ & -> & _).
Qed.

(** *** A skipped entry of a directory *)



(** *** More mode bits *)

Lemma IsSymlink_Dir p m : IsSymlink (info_of p (Dir m)) = false.
Proof.
  unfold IsSymlink. simpl. rewrite Z.land_lor_distr_l, <-Z.land_assoc.
  change (Z.land chmod_mask ModeSymlink) with 0.
  change (Z.land ModeDir ModeSymlink) with 0. by rewrite Z.land_0_r.
Qed.

Lemma IsDir_Dir p m : IsDir (info_of p (Dir m)) = true.
Proof.
  unfold IsDir. simpl. rewrite Z.land_lor_distr_l, <-Z.land_assoc.
  change (Z.land chmod_mask ModeDir) with 0.
  change (Z.land ModeDir ModeDir) with ModeDir.
  by rewrite Z.land_0_r, Z.lor_0_r.
Qed.

Lemma IsSymlink_Link p target : IsSymlink (info_of p (Link target)) = true.
Proof. done. Qed.


(** *** The whole tree *)







(** *** Symlinks *)


(** X15: [Copy] of a symlink under the Shallow policy, to a path that is free
    in a directory that is there, succeeds and makes a symlink with the same
    target string, whether the target exists or not; it makes three calls
    and changes nothing else. *)
Theorem Copy_Shallow_link depth src dest (opts : list (Options path)) fs
    (target : path) :
  nodes fs !! src = Some (Link target) →
  policy (hd DefaultOptions (opts ++ [DefaultOptions])) src = Shallow →
  nodes fs !! dest = None → is_dir (nodes fs) (tail dest) →
  Copy depth src dest opts fs
    = Some (None, set_nodes fs (<[dest := Link target]> (nodes fs)),
            [EvLstat src (inl (info_of src (Link target)));
             EvReadlink src (inl target);
             EvSymlink target dest None]).
Proof.
  intros Hsrc Hpol Hdest [mp Hpar].
  unfold Copy, CopyButSkipSome, bind, call_Lstat, call. simpl.
  unfold Lstat. rewrite Hsrc.
  rewrite copy_unfold, decide_False, IsSymlink_Link by apply not_elem_of_empty.
  unfold onsymlink. rewrite policy_defaulted, Hpol.
  unfold lcopy, bind, call_Readlink, call_Symlink, call. simpl.
  unfold Readlink, Symlink, parent_error. by rewrite Hsrc, Hdest, Hpar.
Qed.

(** X16: [Copy] of a symlink under the Shallow policy onto a path that names
    anything at all fails with the error of [os.Symlink], EEXIST, and leaves
    the filesystem as it was: a link is never overwritten. *)
Theorem Copy_Shallow_exists depth src dest (opts : list (Options path)) fs
    (target : path) (n : node) :
  nodes fs !! src = Some (Link target) →
  policy (hd DefaultOptions (opts ++ [DefaultOptions])) src = Shallow →
  nodes fs !! dest = Some n →
  Copy depth src dest opts fs
    = Some (Some EEXIST, fs,
            [EvLstat src (inl (info_of src (Link target)));
             EvReadlink src (inl target);
             EvSymlink target dest (Some EEXIST)]).
Proof.
  intros Hsrc Hpol Hdest.
  unfold Copy, CopyButSkipSome, bind, call_Lstat, call. simpl.
  unfold Lstat. rewrite Hsrc.
  rewrite copy_unfold, decide_False, IsSymlink_Link by apply not_elem_of_empty.
  unfold onsymlink. rewrite policy_defaulted, Hpol.
  unfold lcopy, bind, call_Readlink, call_Symlink, call. simpl.
  unfold Readlink, Symlink. by rewrite Hsrc, Hdest.
Qed.

Lemma copy_Deep_cycle (P : path → Prop) dest opt fs :
  (∀ p, P p → ∃ q, nodes fs !! p = Some (Link q) ∧ P q ∧ policy opt p = Deep) →
  ∀ depth src toSkip info,
    P src → src ∉ toSkip → IsSymlink info = true →
    copy depth src dest toSkip info opt fs = None.
Proof.
  intros Hcycle.
  induction depth as [|depth IH]; intros src toSkip info Hsrc Hskip Hlink;
    rewrite copy_unfold, decide_False, Hlink by done;
    destruct (Hcycle src Hsrc) as (q & Hq & HPq & Hpol);
    destruct (Hcycle q HPq) as (q' & Hq' & _ & _);
    unfold onsymlink;
    rewrite policy_defaulted, Hpol, ?(policy_Deep_defaulted _ _ Hpol);
    unfold bind, call_Readlink, call_Lstat, call; simpl;
    unfold Readlink, Lstat; rewrite Hq, Hq'.
  - done.
  - rewrite IH; [done..|apply not_elem_of_empty|done].
Qed.

(** X17: a cycle of symlinks under the Deep policy is not detected: when the
    source is a link in a set of links that all point into the set and are
    all dereferenced, [Copy] returns at no recursion bound. *)
Theorem Copy_Deep_cycle (P : path → Prop) depth src dest
    (opts : list (Options path)) fs :
  (∀ p, P p → ∃ q, nodes fs !! p = Some (Link q) ∧ P q
                   ∧ policy (hd DefaultOptions (opts ++ [DefaultOptions])) p
                     = Deep) →
  P src →
  Copy depth src dest opts fs = None.
Proof.
  intros Hcycle Hsrc. destruct (Hcycle src Hsrc) as (q & Hq & _ & _).
  unfold Copy, CopyButSkipSome, bind, call_Lstat, call. simpl.
  unfold Lstat. rewrite Hq.
  rewrite (copy_Deep_cycle P dest _ fs Hcycle);
    [done..|apply not_elem_of_empty|done].
Qed.

(** *** Returning *)








(** *** The table of open descriptors *)

Lemma MkdirAll_fds p perm fs e fs' :
  MkdirAll p perm fs = (e, fs') → fds fs' = fds fs.
Proof.
  unfold MkdirAll. destruct (mkdir_all _ p (nodes fs)). by intros [= _ <-].
Qed.

Lemma Chmod_fds p mode fs e fs' :
  Chmod p mode fs = (e, fs') → fds fs' = fds fs.
Proof. unfold Chmod. intros Hc. by repeat case_match; simplify_eq/=. Qed.

Lemma Symlink_fds o p fs e fs' :
  Symlink o p fs = (e, fs') → fds fs' = fds fs.
Proof.
  unfold Symlink, parent_error. intros Hc.
  by repeat case_match; simplify_eq/=.
Qed.

Lemma lcopy_fds src dest fs r fs' t :
  lcopy src dest fs = Some (r, fs', t) → fds fs' = fds fs.
Proof.
  unfold lcopy.
  intros (rl & fs1 & ? & ? & [Hrl _]%call_Some & Hrun & _)%bind_Some.
  simpl in Hrl. pose proof (Readlink_same src fs) as Hsame.
  rewrite Hrl in Hsame. simpl in Hsame. subst fs1. destruct rl as [orig|e].
  - apply call_Some in Hrun as [Hsl _]. by apply Symlink_fds in Hsl.
  - by apply ret_Some in Hrun as (_ & -> & _).
Qed.

Lemma dcopy_range_fds (again : dispatcher) srcdir destdir toSkip opt
    contents fs r fs' t :
  (∀ s d k i o w r w' t,
     again s d k i o w = Some (r, w', t) → fds w' = fds w) →
  dcopy_range again srcdir destdir toSkip opt contents fs
    = Some (r, fs', t) →
  fds fs' = fds fs.
Proof.
  intros Hcopy. revert fs r fs' t.
  induction contents as [|c rest IH]; simpl; intros fs r fs' t Hrun.
  - by apply ret_Some in Hrun as (_ & -> & _).
  - apply bind_Some in Hrun as (e & fs1 & ? & ? & Hc & Hrun & _).
    apply Hcopy in Hc. destruct e as [e|].
    + by apply ret_Some in Hrun as (_ & -> & _).
    + apply IH in Hrun. congruence.
Qed.

Lemma dcopy_fds (again : dispatcher) src dest toSkip info opt fs r fs' t :
  (∀ s d k i o w r w' t,
     again s d k i o w = Some (r, w', t) → fds w' = fds w) →
  dcopy again src dest toSkip info opt fs = Some (r, fs', t) →
  fds fs' = fds fs.
Proof.
  intros Hcopy. unfold dcopy, defer, chmod.
  intros (e & fs1 & ? & ? & [Hmk%MkdirAll_fds _]%call_Some & Hrun & _)%bind_Some.
  destruct e as [e|]; [by apply ret_Some in Hrun as (_ & -> & _)|].
  apply bind_Some in Hrun as (rb & fs2 & ? & ? & Hbody & Hch & _).
  apply bind_Some in Hch
    as (ec & fs3 & ? & ? & [Hch%Chmod_fds _]%call_Some & Hret & _).
  apply ret_Some in Hret as (_ & -> & _).
  apply bind_Some in Hbody
    as (rl & fs4 & ? & ? & [Hls _]%call_Some & Hbody & _).
  simpl in Hls. pose proof (ReadDir_same src fs1) as Hsame.
  rewrite Hls in Hsame. simpl in Hsame. subst fs4.
  destruct rl as [contents|e].
  - apply (dcopy_range_fds _ _ _ _ _ _ _ _ _ _ Hcopy) in Hbody. congruence.
  - apply ret_Some in Hbody as (_ & -> & _). congruence.
Qed.

Lemma onsymlink_fds (again : dispatcher) src dest info opt fs r fs' t :
  (∀ s d k i o w r w' t,
     again s d k i o w = Some (r, w', t) → fds w' = fds w) →
  onsymlink again src dest info opt fs = Some (r, fs', t) →
  fds fs' = fds fs.
Proof.
  intros Hcopy. unfold onsymlink. destruct (policy _ src).
  - apply lcopy_fds.
  - intros (rl & fs1 & ? & ? & [Hrl _]%call_Some & Hrun & _)%bind_Some.
    simpl in Hrl. pose proof (Readlink_same src fs) as Hsame.
    rewrite Hrl in Hsame. simpl in Hsame. subst fs1.
    destruct rl as [orig|e]; [|by apply ret_Some in Hrun as (_ & -> & _)].
    apply bind_Some in Hrun
      as (rs & fs2 & ? & ? & [Hst _]%call_Some & Hrun & _).
    simpl in Hst. pose proof (Lstat_same orig fs) as Hsame.
    rewrite Hst in Hsame. simpl in Hsame. subst fs2.
    destruct rs as [info'|e]; [|by apply ret_Some in Hrun as (_ & -> & _)].
    by apply Hcopy in Hrun.
  - by intros (_ & -> & _)%ret_Some.
Qed.

Lemma copy_fds depth src dest toSkip info opt fs r fs' t :
  copy depth src dest toSkip info opt fs = Some (r, fs', t) →
  fds fs' = fds fs.
Proof.
  revert src dest toSkip info opt fs r fs' t.
  induction depth as [|depth IH]; intros src dest toSkip info opt fs r fs' t;
    rewrite copy_unfold;
    (case_decide; [by intros (_ & -> & _)%ret_Some|]);
    (destruct (IsSymlink info);
      [apply onsymlink_fds; try done; by intros|]);
    (destruct (IsDir info);
      [apply dcopy_fds; try done; by intros
      |by intros (? & ? & _ & _ & ? & _)%fcopy_run]).
Qed.

(** X19: when [CopyButSkipSome] has returned, with or without an error, the
    descriptors that are open are those that were open before: every file it
    opened is closed, and no other descriptor is. *)
Theorem CopyButSkipSome_leaves_no_descriptor depth src dest
    (skipList : list path) (opts : list (Options path)) fs r fs' t :
  CopyButSkipSome depth src dest skipList opts fs = Some (r, fs', t) →
  fds fs' = fds fs.
Proof.
  unfold CopyButSkipSome.
  intros (ri & fs1 & ? & ? & [Hst _]%call_Some & Hrun & _)%bind_Some.
  simpl in Hst. pose proof (Lstat_same src fs) as Hsame.
  rewrite Hst in Hsame. simpl in Hsame. subst fs1.
  destruct ri as [info|e].
  - by apply copy_fds in Hrun.
  - by apply ret_Some in Hrun as (_ & -> & _).
Qed.

(** *** What is in the way *)

Lemma set_nodes_same fs : set_nodes fs (nodes fs) = fs.
Proof. by destruct fs. Qed.

(** X20: [Copy] of a directory onto an existing regular file fails in
    [os.MkdirAll], before the deferred [chmod] is registered: the file keeps
    its mode and nothing changes. *)
Theorem Copy_dir_onto_file depth src dest (opts : list (Options path)) fs
    m c m' :
  nodes fs !! src = Some (Dir m) →
  nodes fs !! dest = Some (File c m') →
  Copy depth src dest opts fs
    = Some (Some ENOTDIR, fs,
            [EvLstat src (inl (info_of src (Dir m)));
             EvMkdirAll dest tmpPermissionForDirectory (Some ENOTDIR)]).
Proof.
  intros Hsrc Hdest. unfold Copy, CopyButSkipSome, bind at 1, call_Lstat, call.
  simpl. unfold Lstat. rewrite Hsrc.
  rewrite copy_unfold, decide_False, IsSymlink_Dir, IsDir_Dir
    by apply not_elem_of_empty.
  unfold dcopy, bind, call_MkdirAll, call. simpl. unfold MkdirAll.
  assert (∀ perm, mkdir_all perm dest (nodes fs) = (Some ENOTDIR, nodes fs))
    as -> by (intros perm; destruct dest; simpl; by rewrite Hdest).
  by rewrite set_nodes_same.
Qed.

(** X21: [Copy] of a regular file onto an existing directory fails in
    [os.Create], and the directory is not touched. *)
Theorem Copy_file_onto_dir depth src dest (opts : list (Options path)) fs
    c m :
  nodes fs !! src = Some (File c m) →
  is_dir (nodes fs) dest → is_dir (nodes fs) (tail dest) →
  Copy depth src dest opts fs
    = Some (Some EISDIR, fs,
            [EvLstat src (inl (info_of src (File c m)));
             EvMkdirAll (tail dest) ModePerm None;
             EvCreate dest (inr EISDIR)]).
Proof.
  intros Hsrc [md Hdest] Hpar.
  unfold Copy, CopyButSkipSome, bind at 1, call_Lstat, call.
  simpl. unfold Lstat. rewrite Hsrc.
  rewrite copy_unfold, decide_False, IsSymlink_File, IsDir_File
    by apply not_elem_of_empty.
  unfold fcopy, bind at 1, call_MkdirAll, call. simpl. unfold MkdirAll.
  rewrite (mkdir_all_is_dir _ _ _ Hpar), set_nodes_same.
  unfold bind, call_Create, call. simpl. unfold Create. by rewrite Hdest.
Qed.

End MemFSFurther.


(** * The further properties at work *)

Section ConcreteFurther.

Import MemFS Examples.
Local Open Scope string_scope.
Local Open Scope list_scope.

(** Decide a closed decidable proposition by evaluation. *)
Ltac by_evaluation := apply (bool_decide_unpack _); vm_compute; exact I.

Lemma copy_Skip_witness :
  copy 0 ["l"] ["m"] ∅ (info_of ["l"] (Link ["t"])) (always Skip) fs_link
    = Some (None, fs_link, []).
Proof. apply copy_Skip; reflexivity. Defined.

Lemma CopyButSkipSome_source_skipped_witness :
  CopyButSkipSome 0 ["a"] ["out"] [["a"]] [] fs_tree
    = Some (None, fs_tree, [EvLstat ["a"] (inl info_a)]).
Proof.
  apply CopyButSkipSome_source_skipped.
  - by_evaluation.
  - reflexivity.
Defined.

Lemma CopyButSkipSome_first_error_witness :
  let run := CopyButSkipSome 1 ["a"] ["out"] [] [] fs_blocked in
  Some EISDIR = first_error (trace_of run)
  ∧ (Some EISDIR = None ↔ Forall (λ e, ev_error e = None) (trace_of run)).
Proof.
  apply (CopyButSkipSome_first_error 1 ["a"] ["out"] [] [] fs_blocked
           (Some EISDIR)
           (state_of fs_blocked
              (CopyButSkipSome 1 ["a"] ["out"] [] [] fs_blocked))).
  vm_compute. reflexivity.
Defined.

Lemma CopyButSkipSome_fails_fast_witness :
  fails_fast (trace_of (CopyButSkipSome 1 ["a"] ["out"] [] [] fs_blocked)).
Proof.
  apply (CopyButSkipSome_fails_fast 1 ["a"] ["out"] [] [] fs_blocked
           (Some EISDIR)
           (state_of fs_blocked
              (CopyButSkipSome 1 ["a"] ["out"] [] [] fs_blocked))).
  vm_compute. reflexivity.
Defined.

Lemma CopyButSkipSome_closes_all_witness :
  closed (trace_of (CopyButSkipSome 1 ["a"] ["out"] [] [] fs_blocked))
  ≡ₚ opened (trace_of (CopyButSkipSome 1 ["a"] ["out"] [] [] fs_blocked)).
Proof.
  apply (CopyButSkipSome_closes_all 1 ["a"] ["out"] [] [] fs_blocked
           (Some EISDIR)
           (state_of fs_blocked
              (CopyButSkipSome 1 ["a"] ["out"] [] [] fs_blocked))).
  vm_compute. reflexivity.
Defined.



Lemma CopyButSkipSome_keeps_kinds_witness :
  keeps_kinds fs_blocked
    (state_of fs_blocked (CopyButSkipSome 1 ["a"] ["out"] [] [] fs_blocked)).
Proof.
  apply (CopyButSkipSome_keeps_kinds 1 ["a"] ["out"] [] [] fs_blocked
           (Some EISDIR) _
           (trace_of (CopyButSkipSome 1 ["a"] ["out"] [] [] fs_blocked))).
  vm_compute. reflexivity.
Defined.




Lemma Copy_Shallow_link_witness :
  Copy 0 ["l"] ["m"] [] fs_link
    = Some (None, set_nodes fs_link (<[["m"] := Link ["t"]]> (nodes fs_link)),
            [EvLstat ["l"] (inl (info_of ["l"] (Link ["t"])));
             EvReadlink ["l"] (inl ["t"]);
             EvSymlink ["t"] ["m"] None]).
Proof.
  apply Copy_Shallow_link.
  - vm_compute. reflexivity.
  - reflexivity.
  - vm_compute. reflexivity.
  - exists 0x1ed. vm_compute. reflexivity.
Defined.

Lemma Copy_Shallow_exists_witness :
  Copy 0 ["l"; "a"] ["t"] [] fs_tree
    = Some (Some EEXIST, fs_tree,
            [EvLstat ["l"; "a"] (inl info_l);
             EvReadlink ["l"; "a"] (inl ["t"]);
             EvSymlink ["t"] ["t"] (Some EEXIST)]).
Proof.
  apply (Copy_Shallow_exists 0 ["l"; "a"] ["t"] [] fs_tree ["t"] (Dir 0x1ed)).
  - vm_compute. reflexivity.
  - reflexivity.
  - vm_compute. reflexivity.
Defined.

Lemma Copy_Deep_cycle_witness :
  Copy 7 ["l"] ["m"] [always Deep] fs_loop = None.
Proof.
  apply (Copy_Deep_cycle (λ p, p = ["l"])); [|done].
  intros p ->. exists ["l"]. split_and!; [vm_compute; reflexivity|done..].
Defined.


Lemma CopyButSkipSome_leaves_no_descriptor_witness :
  fds (state_of fs_blocked (CopyButSkipSome 1 ["a"] ["out"] [] [] fs_blocked))
    = fds fs_blocked.
Proof.
  apply (CopyButSkipSome_leaves_no_descriptor 1 ["a"] ["out"] [] []
           fs_blocked (Some EISDIR) _
           (trace_of (CopyButSkipSome 1 ["a"] ["out"] [] [] fs_blocked))).
  vm_compute. reflexivity.
Defined.

Lemma Copy_dir_onto_file_witness :
  Copy 1 ["a"] ["x"; "t"] [] fs_tree
    = Some (Some ENOTDIR, fs_tree,
            [EvLstat ["a"] (inl info_a);
             EvMkdirAll ["x"; "t"] tmpPermissionForDirectory (Some ENOTDIR)]).
Proof.
  apply (Copy_dir_onto_file 1 ["a"] ["x"; "t"] [] fs_tree 0x1c0
           (bytes "sk") 0x1a4); vm_compute; reflexivity.
Defined.

Lemma Copy_file_onto_dir_witness :
  Copy 0 ["f"; "a"] ["t"] [] fs_tree
    = Some (Some EISDIR, fs_tree,
            [EvLstat ["f"; "a"] (inl info_f);
             EvMkdirAll [] ModePerm None;
             EvCreate ["t"] (inr EISDIR)]).
Proof.
  apply (Copy_file_onto_dir 0 ["f"; "a"] ["t"] [] fs_tree (bytes "hi") 0x1a4).
  - vm_compute. reflexivity.
  - exists 0x1ed. vm_compute. reflexivity.
  - exists 0x1ed. vm_compute. reflexivity.
Defined.

End ConcreteFurther.
